(** * fermipy.sourcefind: peak detection and the iterative source finder

    A shallow embedding of [src/fermipy/sourcefind.py].

    Numbers.  The grid values, the threshold, the pixel scale and the minimum
    separation are Python floats; they are embedded as exact rationals [Q]
    (finite values, no rounding, no NaN).  Pixel indices are integers [Z].
    The Euclidean pixel distances produced by [utils.make_pixel_offset] are
    kept exactly through their squares (see [Dist]).

    Library calls.  [scipy.ndimage.maximum_filter], [scipy.ndimage.label],
    [scipy.ndimage.find_objects] and the builtin [sorted] are embedded from
    their documented behaviour for the arguments the source passes.

    The fitting engine ([gta]) is an external collaborator: the finder is a
    program over its calls ([Prog]), run against any engine ([Engine]). *)

From Stdlib Require Import String DecimalString.
From Stdlib Require DecimalN DecimalFacts.
From Stdlib Require Import ZArith QArith Qminmax Qround List Bool Lia Lqa.
From Stdlib Require Import Sorted Permutation.
Import ListNotations.

Local Open Scope Z_scope.

(** ** Outcomes: a value or a raised exception *)

Inductive Error : Type :=
| ZeroDivisionError
| ValueError
| EngineError.

Inductive result (A : Type) : Type :=
| Ok (a : A)
| Err (e : Error).

Arguments Ok {A} a.
Arguments Err {A} e.

(** ** 2-D arrays *)

Module Array2.

Definition pixel : Type := (Z * Z)%type.   (* (row, column) = (iy, ix) *)

Definition pixel_eqb (p q : pixel) : bool :=
  (fst p =? fst q) && (snd p =? snd q).

Definition mem (p : pixel) (l : list pixel) : bool := existsb (pixel_eqb p) l.

Definition range (n : Z) : list Z := map Z.of_nat (seq 0 (Z.to_nat n)).

Section Generic.
Context {A : Type}.

Definition nrows (a : list (list A)) : Z := Z.of_nat (length a).
Definition ncols (a : list (list A)) : Z := Z.of_nat (length (hd [] a)).

(** [a[i, j]] for an index inside the array; [d] outside. *)
Definition get (d : A) (a : list (list A)) (i j : Z) : A :=
  if (0 <=? i) && (0 <=? j)
  then nth (Z.to_nat j) (nth (Z.to_nat i) a []) d
  else d.

Definition tabulate (nr nc : Z) (f : Z -> Z -> A) : list (list A) :=
  map (fun i => map (fun j => f i j) (range nc)) (range nr).
End Generic.

(** All the indices of an [nr] x [nc] array, in C (row-major) order. *)
Definition all_pixels (nr nc : Z) : list pixel :=
  flat_map (fun i => map (fun j => (i, j)) (range nc)) (range nr).

End Array2.
Import Array2.

(** ** Distances of the form [scale * sqrt radicand] *)

(** [utils.make_pixel_offset] returns [sqrt (dx^2 + dy^2)], in general an
    irrational number; the source only multiplies it by the pixel scale and
    compares it with [min_separation].  A [Dist] denotes the real number
    [scale * sqrt radicand] ([0 <= radicand]); both operations are exact
    here, where the source computes them in double precision: the rounding
    of doubles is left out. *)
Record Dist : Type := mkDist { radicand : Q; scale : Q }.

Definition Dist_scale (c : Q) (d : Dist) : Dist :=
  mkDist (radicand d) (scale d * c)%Q.

(** [scale * sqrt radicand < s], decided on the squares according to the
    signs of both sides. *)
Definition Dist_ltb (d : Dist) (s : Q) : bool :=
  let sq := (radicand d * (scale d * scale d))%Q in   (* the square of [d] *)
  if Qle_bool 0 (scale d)
  then (* 0 <= d *) negb (Qle_bool s 0) && negb (Qle_bool (s * s)%Q sq)
  else (* d <= 0 *) negb (Qle_bool s 0) || negb (Qle_bool sq (s * s)%Q).

(** Modelled from the spec: [fermipy.utils.make_pixel_offset] is not in
    src/.  It builds a square grid of side [npix] centred at its own middle,
    each cell holding the distance, in pixels, from the centre; the centre
    has coordinate [(npix - 1) / 2] on both axes. *)
Definition make_pixel_offset (npix : Z) : list (list Dist) :=
  tabulate npix npix (fun a b =>
    let dy := 2 * a - (npix - 1) in
    let dx := 2 * b - (npix - 1) in
    mkDist (Qmake (dy * dy + dx * dx) 4) 1%Q).

(** ** The map object *)

Record SkyDir : Type := mkSkyDir { ra_deg : Q; dec_deg : Q }.

(** [input_map.wcs]: the per-axis pixel scale [wcs.wcs.cdelt] and the
    pixel-to-sky projection used by [SkyCoord.from_pixel] (an external
    library; it is a field of the WCS here). *)
Record WCS : Type := mkWCS {
  cdelt : Q * Q;
  from_pixel : Z -> Z -> SkyDir     (* from_pixel xp yp *)
}.

(** [input_map.counts] holds finite values, kept exactly as rationals; a
    grid with not-a-number entries is outside this development. *)
Record Map : Type := mkMap { counts : list (list Q); wcs : WCS }.

(** One entry of the list built by [find_peaks]. *)
Record Peak : Type := mkPeak { ix : Z; iy : Z; skydir : SkyDir; amp : Q }.

(** ** scipy.ndimage.maximum_filter(data, footprint=region) *)

(** Boundary mode 'reflect' (the default): [(d c b a | a b c d | d c b a)]. *)
Definition reflect (n i : Z) : Z :=
  if n <=? 1 then 0
  else let m := i mod (2 * n) in
       if m <? n then m else 2 * n - 1 - m.

Fixpoint maximum (x : Q) (l : list Q) : Q :=
  match l with
  | [] => x
  | y :: l' => maximum (Qmax x y) l'
  end.

(** The offsets [(dy, dx)] selected by a footprint, relative to its origin
    (the centre cell, index [size / 2] on both axes). *)
Definition footprint_offsets (fp : list (list bool)) : list (Z * Z) :=
  map (fun p => (fst p - nrows fp / 2, snd p - ncols fp / 2))
      (filter (fun p => get false fp (fst p) (snd p))
              (all_pixels (nrows fp) (ncols fp))).

(** The input values under the footprint centred on [(i, j)]. *)
Definition window (data : list (list Q)) (offs : list (Z * Z)) (i j : Z)
  : list Q :=
  map (fun o => get 0%Q data (reflect (nrows data) (i + fst o))
                             (reflect (ncols data) (j + snd o))) offs.

(** An all-zero footprint is rejected ("All-zero footprint is not
    supported."). *)
Definition maximum_filter (data : list (list Q)) (fp : list (list bool))
  : result (list (list Q)) :=
  let offs := footprint_offsets fp in
  match offs with
  | [] => Err ValueError
  | _ :: _ =>
      Ok (tabulate (nrows data) (ncols data) (fun i j =>
            match window data offs i j with
            | [] => 0%Q
            | v :: vs => maximum v vs
            end))
  end.

(** ** scipy.ndimage.label and scipy.ndimage.find_objects *)

(** [generate_binary_structure(2, connectivity)] as a predicate on the
    offset between two pixels. *)
Definition generate_binary_structure (connectivity : Z) (dy dx : Z) : bool :=
  (Z.abs dy <=? 1) && (Z.abs dx <=? 1)
  && (Z.abs dy + Z.abs dx <=? connectivity).

Section Label.
Variable structure : Z -> Z -> bool.
Variable input : pixel -> bool.
Variable pixels : list pixel.

Definition connected (p q : pixel) : bool :=
  structure (fst q - fst p) (snd q - snd p).

(** One step of the flood fill: add the set pixels that touch [comp]. *)
Definition grow (comp : list pixel) : list pixel :=
  comp ++ filter (fun q => input q && negb (mem q comp)
                           && existsb (fun p => connected p q) comp) pixels.

Fixpoint flood (fuel : nat) (comp : list pixel) : list pixel :=
  match fuel with
  | O => comp
  | S fuel' => flood fuel' (grow comp)
  end.

(** Scan in C order; every set pixel not yet labelled starts the next
    feature. *)
Fixpoint label_scan (todo seen : list pixel) : list (list pixel) :=
  match todo with
  | [] => []
  | p :: todo' =>
      if input p && negb (mem p seen)
      then let comp := flood (length pixels) [p] in
           comp :: label_scan todo' (comp ++ seen)
      else label_scan todo' seen
  end.
End Label.

(** [scipy.ndimage.label(input)]: the features of a boolean array, feature
    [k] of the list being the pixels labelled [k + 1].  Without a
    [structure] argument the structuring element is
    [generate_binary_structure(2, 1)], the cross
    [[0,1,0],[1,1,1],[0,1,0]]: pixels touch along rows and columns only. *)
Definition label_with (structure : Z -> Z -> bool) (input : list (list bool))
  : list (list pixel) :=
  let pixels := all_pixels (nrows input) (ncols input) in
  label_scan structure (fun p => get false input (fst p) (snd p))
             pixels pixels [].

Definition label (input : list (list bool)) : list (list pixel) :=
  label_with (generate_binary_structure 1) input.

Record slice : Type := mkSlice { start : Z; stop : Z }.

Definition minimum_Z (x : Z) (l : list Z) : Z := fold_left Z.min l x.
Definition maximum_Z (x : Z) (l : list Z) : Z := fold_left Z.max l x.

(** The bounding box of a feature: a (row slice, column slice) pair. *)
Definition bounding_box (comp : list pixel) : slice * slice :=
  match comp with
  | [] => (mkSlice 0 0, mkSlice 0 0)
  | p :: ps =>
      (mkSlice (minimum_Z (fst p) (map fst ps))
               (maximum_Z (fst p) (map fst ps) + 1),
       mkSlice (minimum_Z (snd p) (map snd ps))
               (maximum_Z (snd p) (map snd ps) + 1))
  end.

Definition find_objects (labeled : list (list pixel)) : list (slice * slice) :=
  map bounding_box labeled.

(** ** sorted(peaks, key=lambda t: t['amp'], reverse=True) *)

(** The sort is stable, also with [reverse=True]: an element goes before
    the first element of strictly smaller or equal key that follows it. *)
Fixpoint insert_desc (p : Peak) (l : list Peak) : list Peak :=
  match l with
  | [] => [p]
  | q :: l' =>
      if Qle_bool (amp q) (amp p) then p :: q :: l'
      else q :: insert_desc p l'
  end.

Definition sorted_desc (l : list Peak) : list Peak :=
  fold_right insert_desc [] l.

(** ** find_peaks *)

Definition Qtrunc (q : Q) : Z := Z.quot (Qnum q) (Zpos (Qden q)).  (* int(q) *)

Definition pixel_scale (m : Map) : Q :=
  Qmax (fst (cdelt (wcs m))) (snd (cdelt (wcs m))).   (* max(wcs.wcs.cdelt) *)

(** [region = deltaxy < min_separation] *)
Definition region (m : Map) (min_separation : Q) : result (list (list bool)) :=
  let c := pixel_scale m in
  if Qeq_bool c 0%Q then Err ZeroDivisionError
  else
    let region_size_pix := Qtrunc (min_separation / c)%Q in
    let npix := region_size_pix * 2 + 3 in
    if npix <? 0 then Err ValueError          (* np.linspace: negative size *)
    else
      let deltaxy := map (map (Dist_scale c)) (make_pixel_offset npix) in
      Ok (map (map (fun d => Dist_ltb d min_separation)) deltaxy).

(** [local_max], after [local_max[data < threshold] = False]. *)
Definition local_max (m : Map) (threshold min_separation : Q)
  : result (list (list bool)) :=
  let data := counts m in
  match region m min_separation with
  | Err e => Err e
  | Ok fp =>
      match maximum_filter data fp with
      | Err e => Err e
      | Ok filtered =>
          Ok (tabulate (nrows data) (ncols data) (fun i j =>
                (* maximum_filter(...) == data *)
                Qeq_bool (get 0%Q filtered i j) (get 0%Q data i j)
                (* and not data < threshold *)
                && negb (negb (Qle_bool threshold (get 0%Q data i j)))))
      end
  end.

Definition peak_of_slice (m : Map) (s : slice * slice) : Peak :=
  let skydir := from_pixel (wcs m) (start (snd s)) (start (fst s)) in
  mkPeak (start (snd s)) (start (fst s)) skydir
         (get 0%Q (counts m) (start (fst s)) (start (snd s))).

Definition find_peaks (input_map : Map) (threshold min_separation : Q)
  : result (list Peak) :=
  match local_max input_map threshold min_separation with
  | Err e => Err e
  | Ok local_max =>
      let labeled := label local_max in
      let slices := find_objects labeled in
      let peaks := map (peak_of_slice input_map) slices in
      Ok (sorted_desc peaks)
  end.

(** ** The source finder and its collaborators *)

(** The seed model handed to the engine ([src_dict]). *)
Record SrcDict : Type := mkSrcDict {
  Index : Q;
  Prefactor : Q;
  SpatialModel : string;
  ra : option Q;
  dec : option Q
}.

(** [self.config] and the per-call overrides [**kwargs]. *)
Record Config : Type := mkConfig {
  max_iter : Z;
  sqrt_ts_threshold : Q;
  min_separation : Q;
  sources_per_iter : Z;
  localize : bool
}.

Record Kwargs : Type := mkKwargs {
  kw_max_iter : option Z;
  kw_sqrt_ts_threshold : option Q;
  kw_min_separation : option Q;
  kw_sources_per_iter : option Z;
  kw_localize : option bool
}.

(** [kwargs.get(key, default)] *)
Definition kwargs_get {A : Type} (o : option A) (default : A) : A :=
  match o with
  | Some v => v
  | None => default
  end.

(** The dictionary returned by [gta.tsmap]. *)
Record TsMap : Type := mkTsMap { sqrt_ts : Map; amplitude : Map }.

(** [peaks[:k]]: a negative [k] counts from the end of the list. *)
Definition slice_to {A : Type} (k : Z) (l : list A) : list A :=
  if 0 <=? k then firstn (Z.to_nat k) l
  else firstn (Z.to_nat (Z.of_nat (length l) + k)) l.

(** ['%i' % n] and ['%02i' % n] for [0 <= n]. *)
Definition fmt_i (n : Z) : string := NilZero.string_of_uint (N.to_uint (Z.to_N n)).

Definition fmt_02i (n : Z) : string :=
  if n <? 10 then ("0" ++ fmt_i n)%string else fmt_i n.

Section Finder.
(** [gta.roi[name]]: an entry of the engine's catalog. *)
Variable Source : Type.
(** [fermipy.utils.create_source_name] is not in src/: any function from
    sky directions to names. *)
Variable create_source_name : SkyDir -> string.

(** The calls the finder makes on its collaborators, indexed by the type
    of what they return. *)
Inductive Call : Type -> Type :=
| tsmap (name : string) (model : SrcDict) (make_fits : bool) (kw : Kwargs)
  : Call TsMap
| add_source (name : string) (src_dict : SrcDict) (free : bool) : Call unit
| free_source (name : string) (free : bool) : Call unit
| fit : Call unit
| roi_getitem (name : string) : Call Source
| logger_info (msg : string) : Call unit.

(** Programs over the collaborators. *)
Inductive Prog (A : Type) : Type :=
| Ret (a : A)
| Raise (e : Error)
| Vis (R : Type) (c : Call R) (k : R -> Prog A).

Arguments Ret {A} a.
Arguments Raise {A} e.
Arguments Vis {A} R c k.

Fixpoint bind {A B : Type} (p : Prog A) (f : A -> Prog B) : Prog B :=
  match p with
  | Ret a => f a
  | Raise e => Raise e
  | Vis R c k => Vis R c (fun r => bind (k r) f)
  end.

Definition call {R : Type} (c : Call R) : Prog R := Vis R c Ret.

Definition lift {A : Type} (r : result A) : Prog A :=
  match r with
  | Ok a => Ret a
  | Err e => Raise e
  end.

Notation "x <- p ;; q" := (bind p (fun x => q))
  (at level 61, p at next level, right associativity).
Notation "p ;; q" := (bind p (fun _ => q))
  (at level 61, right associativity).

(** [for x in l: acc = body(x, acc)] *)
Fixpoint for_in {X S : Type} (l : list X) (acc : S)
         (body : X -> S -> Prog S) : Prog S :=
  match l with
  | [] => Ret acc
  | x :: l' => acc' <- body x acc ;; for_in l' acc' body
  end.

Definition seed_src_dict : SrcDict :=
  mkSrcDict 2 (1 # 10000000000000) "PointSource" None None.

Definition peak_src_dict (amp : Map) (p : Peak) : SrcDict :=
  mkSrcDict 2
            ((1 # 10000000000000) * get 0%Q (counts amp) (iy p) (ix p))%Q
            "PointSource"
            (Some (ra_deg (skydir p)))
            (Some (dec_deg (skydir p))).

Definition _iterate (config : Config) (iiter : Z) (kwargs : Kwargs)
  : Prog (list Source) :=
  let src_dict := seed_src_dict in
  let threshold :=
    kwargs_get (kw_sqrt_ts_threshold kwargs) (sqrt_ts_threshold config) in
  let min_separation :=
    kwargs_get (kw_min_separation kwargs) (min_separation config) in
  let sources_per_iter :=
    kwargs_get (kw_sources_per_iter kwargs) (sources_per_iter config) in
  m <- call (tsmap ("sourcefind_" ++ fmt_02i iiter)%string src_dict false
              kwargs) ;;
  let amp := amplitude m in
  peaks <- lift (find_peaks (sqrt_ts m) threshold min_separation) ;;
  names <- for_in (slice_to sources_per_iter peaks) []
             (fun p names =>
                let name := create_source_name (skydir p) in
                let src_dict := peak_src_dict amp p in
                let names := names ++ [name] in
                call (add_source name src_dict true) ;;
                Ret names) ;;
  for_in names tt (fun name _ => call (free_source name false)) ;;
  (* Re-fit spectral parameter of each source individually *)
  for_in names tt (fun name _ =>
                     call (free_source name true) ;;
                     call fit ;;
                     call (free_source name false)) ;;
  srcs <- for_in names []
            (fun name srcs => s <- call (roi_getitem name) ;;
                              Ret (srcs ++ [s])) ;;
  Ret srcs.

(** The returned dictionary [o]. *)
Record ResultSet : Type := mkResultSet { sources : list Source }.

(** ['Found %i sources in iteration %i.' % (len(srcs), i)] *)
Definition found_message (nsrc : nat) (i : Z) : string :=
  ("Found " ++ fmt_i (Z.of_nat nsrc) ++ " sources in iteration " ++ fmt_i i
   ++ ".")%string.

(** The body of [for i in range(max_iter)], over the indices still to
    run; [break] leaves the loop. *)
Fixpoint find_sources_loop (config : Config) (kwargs : Kwargs)
         (todo : list Z) (o : ResultSet) : Prog ResultSet :=
  match todo with
  | [] => Ret o
  | i :: todo' =>
      srcs <- _iterate config i kwargs ;;
      call (logger_info (found_message (length srcs) i)) ;;
      let o := mkResultSet (sources o ++ srcs) in
      if (length srcs =? 0)%nat then Ret o
      else find_sources_loop config kwargs todo' o
  end.

Definition find_sources (config : Config) (kwargs : Kwargs)
  : Prog ResultSet :=
  let o := mkResultSet [] in
  let max_iter := kwargs_get (kw_max_iter kwargs) (max_iter config) in
  find_sources_loop config kwargs (range max_iter) o.

(** *** Running a program against an engine *)

(** An engine answers a call from its state, or raises. *)
Definition Engine (St : Type) : Type :=
  forall R : Type, Call R -> St -> option (R * St).

Definition Event : Type := { R : Type & Call R }.

Definition ev {R : Type} (c : Call R) : Event := existT _ R c.

(** The calls made, the final engine state, and the outcome. *)
Fixpoint run {St A : Type} (h : Engine St) (p : Prog A) (s : St)
  : list Event * St * result A :=
  match p with
  | Ret a => ([], s, Ok a)
  | Raise e => ([], s, Err e)
  | Vis R c k =>
      match h R c s with
      | None => ([ev c], s, Err EngineError)
      | Some (r, s') =>
          let '(tr, s'', res) := run h (k r) s' in (ev c :: tr, s'', res)
      end
  end.
(** *** Observing the calls made *)

(** The label of round [iiter]. *)
Definition round_label (iiter : Z) : string :=
  ("sourcefind_" ++ fmt_02i iiter)%string.

(** The names given to a list of peaks. *)
Definition names_of (peaks : list Peak) : list string :=
  map (fun p => create_source_name (skydir p)) peaks.

(** The calls of one complete round that promotes [promoted], the engine
    having answered [m] to [tsmap]. *)
Definition round_calls (kwargs : Kwargs) (iiter : Z) (m : TsMap)
           (promoted : list Peak) : list Event :=
  ev (tsmap (round_label iiter) seed_src_dict false kwargs)
  :: map (fun p => ev (add_source (create_source_name (skydir p))
                                  (peak_src_dict (amplitude m) p) true))
         promoted
  ++ map (fun name => ev (free_source name false)) (names_of promoted)
  ++ flat_map (fun name => [ev (free_source name true); ev fit;
                            ev (free_source name false)])
              (names_of promoted)
  ++ map (fun name => ev (roi_getitem name)) (names_of promoted).

Definition is_tsmap (e : Event) : bool :=
  match projT2 e with
  | tsmap _ _ _ _ => true
  | _ => false
  end.

Definition is_logger_info (e : Event) : bool :=
  match projT2 e with
  | logger_info _ => true
  | _ => false
  end.

(** The rounds started: one [tsmap] call each. *)
Definition rounds_started (tr : list Event) : nat :=
  length (filter is_tsmap tr).

(** The names registered with [add_source], in call order. *)
Definition registered (tr : list Event) : list string :=
  flat_map (fun e => match projT2 e with
                     | add_source name _ _ => [name]
                     | _ => []
                     end) tr.
End Finder.

Arguments tsmap {Source} name model make_fits kw.
Arguments add_source {Source} name src_dict free.
Arguments free_source {Source} name free.
Arguments fit {Source}.
Arguments roi_getitem {Source} name.
Arguments logger_info {Source} msg.
Arguments Ret {Source A} a.
Arguments Raise {Source A} e.
Arguments Vis {Source A} R c k.
Arguments bind {Source A B} p f.
Arguments call {Source R} c.
Arguments lift {Source A} r.
Arguments for_in {Source X S} l acc body.
Arguments mkResultSet {Source} sources.
Arguments sources {Source} r.
Arguments ev {Source R} c.
Arguments run {Source St A} h p s.
Arguments is_tsmap {Source} e.
Arguments is_logger_info {Source} e.
Arguments rounds_started {Source} tr.
Arguments registered {Source} tr.
Arguments round_calls {Source} create_source_name kwargs iiter m promoted.

(** ** Auxiliary notions used in the statements *)

(** Sorted by amplitude, descending. *)
Definition descending : list Peak -> Prop :=
  StronglySorted (fun p q => (amp q <= amp p)%Q).

(** The side of the footprint built by [find_peaks]. *)
Definition footprint_size (m : Map) (s : Q) : Z :=
  (Qtrunc (s / pixel_scale m)%Q * 2 + 3)%Z.

(** Squared pixel distance between two pixels. *)
Definition dist2 (p q : pixel) : Z :=
  ((fst q - fst p) * (fst q - fst p) + (snd q - snd p) * (snd q - snd p))%Z.



Definition peak_pixel (p : Peak) : pixel := (iy p, ix p).

(** The peak is a single-pixel maximum: the feature reported at its pixel
    is that pixel alone. *)
Definition single_pixel_maximum (m : Map) (T s : Q) (p : Peak) : Prop :=
  exists lm, local_max m T s = Ok lm /\ In [peak_pixel p] (label lm).

(** The start of the bounding box of a feature. *)
Definition origin (comp : list pixel) : pixel :=
  (start (fst (bounding_box comp)), start (snd (bounding_box comp))).

(** ** Sample maps *)

Module Sample.

(** A tangent-plane WCS with square pixels of [c] degrees. *)
Definition flat_wcs (c : Q) : WCS :=
  mkWCS (- c, c)%Q
        (fun xp yp => mkSkyDir (inject_Z xp * c)%Q (inject_Z yp * c)%Q).

(** A 5 x 5 grid of zeros with a single 10 in the middle. *)
Definition single : Map :=
  mkMap [[0; 0; 0; 0; 0]; [0; 0; 0; 0; 0]; [0; 0; 10; 0; 0];
         [0; 0; 0; 0; 0]; [0; 0; 0; 0; 0]]%Q (flat_wcs 1).

(** A plateau of three pixels around a lower corner. *)
Definition corner : Map := mkMap [[5; 10]; [10; 10]]%Q (flat_wcs 1).


(** Two maxima joined by a lower saddle. *)
Definition saddle : Map := mkMap [[10; 7; 10]]%Q (flat_wcs 1).

(** Two maxima touching by a corner only. *)
Definition diagonal : Map := mkMap [[0; 10]; [10; 0]]%Q (flat_wcs 1).

(** Three separated maxima of amplitudes 6, 9 and 12. *)
Definition three : Map :=
  mkMap [[6; 0; 0; 0; 9; 0; 0; 0; 12]]%Q (flat_wcs 1).

(** Nothing above any positive threshold. *)
Definition empty_sky : Map :=
  mkMap [[0; 0; 0; 0; 0; 0; 0; 0; 0]]%Q (flat_wcs 1).

(** Two maxima half a degree apart, on pixels of a quarter of a degree. *)
Definition close_pair : Map := mkMap [[10; 0; 9]]%Q (flat_wcs (1 # 4)).



End Sample.

(** ** A fitting-engine stub *)

Module Stub.

(** Names at whole-degree precision. *)
Definition create_source_name (sky : SkyDir) : string :=
  ("PS J" ++ fmt_i (Qfloor (ra_deg sky)) ++ "+"
   ++ fmt_i (Qfloor (dec_deg sky)))%string.

(** The maps still to be answered by [tsmap], one per round, and the
    catalog, newest entry first. *)
Record state : Type := mkState {
  script : list TsMap;
  catalog : list (string * SrcDict)
}.

Fixpoint lookup (name : string) (cat : list (string * SrcDict))
  : option SrcDict :=
  match cat with
  | [] => None
  | (n, d) :: cat' => if String.eqb n name then Some d else lookup name cat'
  end.

Definition remove (name : string) (cat : list (string * SrcDict))
  : list (string * SrcDict) :=
  filter (fun e => negb (String.eqb (fst e) name)) cat.

(** [tsmap] raises once the script is exhausted; [add_source] stores the
    model under the name, replacing an entry of that name; the catalog entry
    is what [roi[name]] reads back, and reading a missing name raises. *)
Definition engine : Engine SrcDict state :=
  fun R c =>
    match c in Call _ R0 return state -> option (R0 * state) with
    | tsmap _ _ _ _ =>
        fun st => match script st with
                  | [] => None
                  | m :: rest => Some (m, mkState rest (catalog st))
                  end
    | add_source name d _ =>
        fun st => Some (tt, mkState (script st)
                                    ((name, d) :: remove name (catalog st)))
    | free_source _ _ => fun st => Some (tt, st)
    | fit => fun st => Some (tt, st)
    | roi_getitem name =>
        fun st => match lookup name (catalog st) with
                  | Some d => Some (d, st)
                  | None => None
                  end
    | logger_info _ => fun st => Some (tt, st)
    end.

Definition config : Config := mkConfig 3 5 1 1 false.

Definition no_kwargs : Kwargs := mkKwargs None None None None None.

Definition tsmap_of (m : Map) : TsMap := mkTsMap m m.

(** An engine about to answer the given maps, with an empty catalog. *)
Definition scripted (maps : list Map) : state :=
  mkState (map tsmap_of maps) [].

(** Three peaks in the first round, none in the second, three again in a
    third one. *)
Definition three_rounds : state :=
  scripted [Sample.three; Sample.empty_sky; Sample.three].

Definition iterate (config : Config) (iiter : Z) (kwargs : Kwargs)
  : Prog SrcDict (list SrcDict) :=
  _iterate SrcDict create_source_name config iiter kwargs.

Definition finder (config : Config) (kwargs : Kwargs)
  : Prog SrcDict (ResultSet SrcDict) :=
  find_sources SrcDict create_source_name config kwargs.

End Stub.

(** ** Notions used in the further properties *)

(** The number of set pixels of a boolean array. *)
Definition count_set (a : list (list bool)) : nat :=
  length (filter (fun p => get false a (fst p) (snd p))
                 (all_pixels (nrows a) (ncols a))).

(** The source a call acts on. *)
Definition call_name {Source R : Type} (c : Call Source R) : option string :=
  match c with
  | add_source name _ _ => Some name
  | free_source name _ => Some name
  | roi_getitem name => Some name
  | _ => None
  end.

Definition event_name {Source : Type} (e : Event Source) : option string :=
  call_name (projT2 e).

Definition is_fit {Source : Type} (e : Event Source) : bool :=
  match projT2 e with
  | fit => true
  | _ => false
  end.

(** The free flag of every source name, as the calls set it:
    [add_source(name, ..., free=b)] and [free_source(name, b)] give [name]
    the flag [b]; the other calls leave the flags alone. *)
Definition set_free (name : string) (b : bool) (free : string -> bool)
  : string -> bool :=
  fun n => if String.eqb n name then b else free n.

Definition track_free {Source : Type} (free : string -> bool)
           (e : Event Source) : string -> bool :=
  match projT2 e with
  | add_source name _ b => set_free name b free
  | free_source name b => set_free name b free
  | _ => free
  end.

Definition free_after {Source : Type} (tr : list (Event Source))
           (free : string -> bool) : string -> bool :=
  fold_left track_free tr free.

(** At every [fit] of the calls [tr], made from the flags [free], exactly
    one of [names] is free. *)
Fixpoint fits_isolated {Source : Type} (names : list string)
         (tr : list (Event Source)) (free : string -> bool) : Prop :=
  match tr with
  | [] => True
  | e :: tr' =>
      (is_fit e = true ->
       exists n, In n names /\
                 forall x, In x names -> (free x = true <-> x = n))
      /\ fits_isolated names tr' (track_free free e)
  end.

(** The four passes of a round, as lists of calls. *)
Definition round_adds {Source : Type} (create_source_name : SkyDir -> string)
           (m : TsMap) (promoted : list Peak) : list (Event Source) :=
  map (fun p => ev (add_source (create_source_name (skydir p))
                               (peak_src_dict (amplitude m) p) true))
      promoted.

Definition round_freezes {Source : Type} (names : list string)
  : list (Event Source) :=
  map (fun name => ev (free_source name false)) names.

Definition round_refits {Source : Type} (names : list string)
  : list (Event Source) :=
  flat_map (fun name => [ev (free_source name true); ev fit;
                         ev (free_source name false)]) names.

Definition round_reads {Source : Type} (names : list string)
  : list (Event Source) :=
  map (fun name => ev (roi_getitem name)) names.

(** * Properties *)

Local Open Scope Q_scope.

(** ** Arrays *)

Lemma range_In (n i : Z) : In i (range n) <-> (0 <= i < n)%Z.
Proof.
  unfold range. rewrite in_map_iff. split.
  - intros [k [<- Hk]]. apply in_seq in Hk. lia.
  - intros H. exists (Z.to_nat i). split; [lia | apply in_seq; lia].
Qed.

Lemma range_nth (n i : Z) :
  (0 <= i < n)%Z -> nth (Z.to_nat i) (range n) 0%Z = i.
Proof.
  intros H. unfold range.
  rewrite (nth_indep _ 0%Z (Z.of_nat 0)) by (rewrite length_map, length_seq; lia).
  rewrite map_nth, seq_nth by lia. lia.
Qed.

Lemma range_length (n : Z) : length (range n) = Z.to_nat n.
Proof. unfold range. now rewrite length_map, length_seq. Qed.

Lemma all_pixels_In (nr nc : Z) (p : pixel) :
  In p (all_pixels nr nc) <-> (0 <= fst p < nr)%Z /\ (0 <= snd p < nc)%Z.
Proof.
  unfold all_pixels. rewrite in_flat_map. split.
  - intros [i [Hi Hp]]. apply in_map_iff in Hp as [j [<- Hj]].
    apply range_In in Hi, Hj. simpl. lia.
  - intros [Hi Hj]. exists (fst p). split; [now apply range_In |].
    apply in_map_iff. exists (snd p). split; [now destruct p | now apply range_In].
Qed.

Lemma nth_map_range {B : Type} (g : Z -> B) (n i : Z) (d : B) :
  (0 <= i < n)%Z -> nth (Z.to_nat i) (map g (range n)) d = g i.
Proof.
  intros H.
  rewrite (nth_indep _ d (g 0%Z)) by (rewrite length_map, range_length; lia).
  rewrite (map_nth g). now rewrite range_nth.
Qed.

Section TabulateFacts.
Context {A : Type} (d : A) (nr nc : Z) (f : Z -> Z -> A).

Lemma get_tabulate (i j : Z) :
  (0 <= i < nr)%Z -> (0 <= j < nc)%Z -> get d (tabulate nr nc f) i j = f i j.
Proof.
  intros Hi Hj. unfold get, tabulate.
  replace (0 <=? i)%Z with true by lia. replace (0 <=? j)%Z with true by lia.
  simpl. rewrite nth_map_range by lia. now rewrite nth_map_range by lia.
Qed.

Lemma nrows_tabulate : nrows (tabulate nr nc f) = Z.max 0 nr.
Proof. unfold nrows, tabulate. rewrite length_map, range_length. lia. Qed.

Lemma ncols_tabulate : (0 < nr)%Z -> ncols (tabulate nr nc f) = Z.max 0 nc.
Proof.
  intros H. unfold ncols, tabulate, range.
  destruct (Z.to_nat nr) eqn:E; [lia |]. simpl.
  rewrite length_map, length_map, length_seq. lia.
Qed.

(** An array built over the shape of another one has the same pixels. *)
Lemma all_pixels_tabulate (p : pixel) :
  (0 <= nr)%Z -> (0 <= nc)%Z ->
  In p (all_pixels (nrows (tabulate nr nc f)) (ncols (tabulate nr nc f)))
  <-> In p (all_pixels nr nc).
Proof.
  intros Hr Hc. rewrite !all_pixels_In, nrows_tabulate.
  destruct (Z.eq_dec nr 0) as [-> | Hn]; [lia |].
  rewrite ncols_tabulate by lia. lia.
Qed.
End TabulateFacts.

Lemma nrows_nonneg {A : Type} (a : list (list A)) : (0 <= nrows a)%Z.
Proof. unfold nrows. lia. Qed.

Lemma ncols_nonneg {A : Type} (a : list (list A)) : (0 <= ncols a)%Z.
Proof. unfold ncols. lia. Qed.

(** ** The sort *)

Lemma insert_desc_In (p x : Peak) (l : list Peak) :
  In x (insert_desc p l) <-> x = p \/ In x l.
Proof.
  induction l as [| q l IH]; simpl.
  - intuition.
  - destruct (Qle_bool (amp q) (amp p)); simpl; [intuition |].
    rewrite IH. intuition.
Qed.

Lemma insert_desc_descending (p : Peak) (l : list Peak) :
  descending l -> descending (insert_desc p l).
Proof.
  unfold descending. induction 1 as [| q l Hl IH Hq]; simpl.
  - constructor; constructor.
  - destruct (Qle_bool (amp q) (amp p)) eqn:E.
    + apply Qle_bool_iff in E. constructor.
      * now constructor.
      * constructor; [exact E |].
        rewrite Forall_forall in *. intros x Hx.
        apply Qle_trans with (amp q); auto.
    + constructor; [exact IH |].
      rewrite Forall_forall in *. intros x Hx.
      apply insert_desc_In in Hx as [-> | Hx]; [| now apply Hq].
      destruct (Qlt_le_dec (amp q) (amp p)) as [Hlt | Hle]; [| exact Hle].
      apply Qlt_le_weak, Qle_bool_iff in Hlt. congruence.
Qed.

Lemma sorted_desc_descending (l : list Peak) : descending (sorted_desc l).
Proof.
  induction l as [| p l IH]; simpl.
  - constructor.
  - now apply insert_desc_descending.
Qed.

Lemma sorted_desc_In (x : Peak) (l : list Peak) :
  In x (sorted_desc l) <-> In x l.
Proof.
  induction l as [| p l IH]; simpl; [tauto |].
  rewrite insert_desc_In, IH. intuition.
Qed.

Lemma insert_desc_length (p : Peak) (l : list Peak) :
  length (insert_desc p l) = S (length l).
Proof.
  induction l as [| q l IH]; simpl; [reflexivity |].
  destruct (Qle_bool (amp q) (amp p)); simpl; congruence.
Qed.

Lemma sorted_desc_length (l : list Peak) : length (sorted_desc l) = length l.
Proof.
  induction l as [| p l IH]; simpl; [reflexivity |].
  now rewrite insert_desc_length, IH.
Qed.

Lemma descending_nth (l : list Peak) (d : Peak) :
  descending l ->
  forall i j : nat, (i < j < length l)%nat -> amp (nth j l d) <= amp (nth i l d).
Proof.
  induction 1 as [| p l Hl IH Hp]; intros i j Hij; simpl in Hij; [lia |].
  destruct j as [| j]; [lia |]. destruct i as [| i]; simpl.
  - rewrite Forall_forall in Hp. apply Hp, nth_In. lia.
  - apply IH. lia.
Qed.

(** ** What [find_peaks] returns *)

(** The list returned is the sorted list of one entry per feature of the
    thresholded local-maximum array, taken at the start of the feature's
    bounding box. *)
Lemma find_peaks_Ok (m : Map) (T s : Q) (peaks : list Peak) :
  find_peaks m T s = Ok peaks ->
  exists lm, local_max m T s = Ok lm /\
             peaks = sorted_desc (map (peak_of_slice m)
                                      (find_objects (label lm))).
Proof.
  unfold find_peaks. destruct (local_max m T s) as [lm | e]; [| discriminate].
  intros [= <-]. now exists lm.
Qed.

(** ** The footprint *)

Lemma Qle_bool_false (x y : Q) : Qle_bool x y = false <-> y < x.
Proof.
  split; intros H.
  - destruct (Qlt_le_dec y x) as [Hlt | Hle]; [exact Hlt |].
    apply Qle_bool_iff in Hle. congruence.
  - destruct (Qle_bool x y) eqn:E; [| reflexivity].
    apply Qle_bool_iff in E. lra.
Qed.

(** For a positive pixel scale and a positive separation the comparison is
    the comparison of the squares. *)
Lemma Dist_ltb_pos (r c s : Q) :
  0 < c -> 0 < s ->
  Dist_ltb (Dist_scale c (mkDist r 1)) s = true <-> r * (c * c) < s * s.
Proof.
  intros Hc Hs. unfold Dist_ltb, Dist_scale. simpl.
  assert (H1 : Qle_bool 0 (1 * c) = true) by (apply Qle_bool_iff; lra).
  assert (H2 : Qle_bool s 0 = false) by now apply Qle_bool_false.
  rewrite H1, H2. simpl.
  assert (E : r * (1 * c * (1 * c)) == r * (c * c)) by ring.
  rewrite negb_true_iff, Qle_bool_false, E. tauto.
Qed.

Lemma Qsquare_le (x y : Q) : 0 <= x -> x <= y -> x * x <= y * y.
Proof.
  intros Hx Hxy. apply Qle_trans with (y * x).
  - apply Qmult_le_compat_r; assumption.
  - rewrite (Qmult_comm y x). apply Qmult_le_compat_r; lra.
Qed.

Lemma Qsquare_lt (x y : Q) : 0 < x -> x < y -> x * x < y * y.
Proof.
  intros Hx Hxy. apply Qlt_trans with (y * x).
  - apply Qmult_lt_compat_r; assumption.
  - apply Qmult_lt_l; lra.
Qed.

Lemma Qtrunc_floor (q : Q) : 0 <= q -> Qtrunc q = Qfloor q.
Proof.
  destruct q as [n d]. unfold Qle, Qtrunc, Qfloor. simpl. intros H.
  apply Z.quot_div_nonneg; lia.
Qed.

Lemma map_map_tabulate {A B : Type} (g : A -> B) (nr nc : Z)
      (f : Z -> Z -> A) :
  map (map g) (tabulate nr nc f) = tabulate nr nc (fun i j => g (f i j)).
Proof.
  unfold tabulate. rewrite map_map. apply map_ext. intros i.
  now rewrite map_map.
Qed.

Lemma region_Ok (m : Map) (s : Q) (fp : list (list bool)) :
  region m s = Ok fp ->
  (0 <= footprint_size m s)%Z /\
  fp = tabulate (footprint_size m s) (footprint_size m s)
         (fun a b =>
            let dy := (2 * a - (footprint_size m s - 1))%Z in
            let dx := (2 * b - (footprint_size m s - 1))%Z in
            Dist_ltb (Dist_scale (pixel_scale m)
                        (mkDist (Qmake (dy * dy + dx * dx) 4) 1)) s).
Proof.
  unfold region, footprint_size.
  destruct (Qeq_bool (pixel_scale m) 0); [discriminate |].
  destruct (_ <? 0)%Z eqn:E; [discriminate |].
  intros [= <-]. split; [lia |].
  unfold make_pixel_offset. now rewrite !map_map_tabulate.
Qed.

(** Every offset whose scaled length is below the separation belongs to
    the footprint: the window of side [2 * region_size_pix + 3] is wide
    enough to hold the whole disc. *)
Lemma footprint_offsets_disc (m : Map) (s : Q) (fp : list (list bool))
      (dy dx : Z) :
  0 < pixel_scale m -> 0 < s ->
  region m s = Ok fp ->
  inject_Z (dy * dy + dx * dx) * (pixel_scale m * pixel_scale m) < s * s ->
  In (dy, dx) (footprint_offsets fp).
Proof.
  intros Hc Hs Hfp Hd.
  apply region_Ok in Hfp as [Hn ->].
  set (c := pixel_scale m) in *.
  set (r := Qtrunc (s / c)).
  assert (Hr : footprint_size m s = (r * 2 + 3)%Z) by reflexivity.
  assert (Hq : 0 <= s / c).
  { apply Qle_shift_div_l; [exact Hc | lra]. }
  assert (Hfl : s / c < inject_Z (r + 1)).
  { unfold r. rewrite Qtrunc_floor by exact Hq. apply Qlt_floor. }
  assert (Hsc : s < inject_Z (r + 1) * c).
  { assert (E : s == s / c * c) by (field; lra).
    rewrite E at 1. now apply Qmult_lt_compat_r. }
  assert (Hr0 : (0 <= r)%Z).
  { unfold r. rewrite Qtrunc_floor by exact Hq.
    rewrite <- (Qfloor_Z 0). now apply Qfloor_resp_le. }
  (* a coordinate of the offset cannot reach [r + 1] *)
  assert (Hbound : forall u v : Z,
             inject_Z (u * u + v * v) * (c * c) < s * s -> (Z.abs u <= r)%Z).
  { intros u v Huv.
    destruct (Z_le_gt_dec (Z.abs u) r) as [Hle | Hgt]; [exact Hle | exfalso].
    assert (H1 : inject_Z (r + 1) <= inject_Z (Z.abs u))
      by (rewrite <- Zle_Qle; lia).
    assert (H2 : 0 <= inject_Z (r + 1)) by (rewrite <- (Zle_Qle 0); lia).
    assert (H3 : inject_Z (u * u + v * v)
                 == inject_Z (Z.abs u) * inject_Z (Z.abs u)
                    + inject_Z (v * v)).
    { rewrite inject_Z_plus, <- inject_Z_mult.
      now replace (Z.abs u * Z.abs u)%Z with (u * u)%Z by lia. }
    assert (H4 : 0 <= inject_Z (v * v)) by (rewrite <- (Zle_Qle 0); nia).
    rewrite H3 in Huv.
    set (U := inject_Z (Z.abs u)) in *. set (V := inject_Z (v * v)) in *.
    set (R := inject_Z (r + 1)) in *.
    assert (H5 : s * s < (R * c) * (R * c)) by now apply Qsquare_lt.
    assert (H6 : (R * c) * (R * c) <= (U * c) * (U * c)).
    { apply Qsquare_le; [apply Qmult_le_0_compat; lra |].
      apply Qmult_le_compat_r; lra. }
    assert (H7 : 0 <= V * (c * c)).
    { apply Qmult_le_0_compat; [exact H4 |]. apply Qmult_le_0_compat; lra. }
    assert (H8 : (U * U + V) * (c * c) == (U * c) * (U * c) + V * (c * c))
      by ring.
    lra. }
  assert (Hy : (Z.abs dy <= r)%Z) by (apply (Hbound dy dx); exact Hd).
  assert (Hx : (Z.abs dx <= r)%Z).
  { apply (Hbound dx dy). now rewrite Z.add_comm. }
  unfold footprint_offsets.
  rewrite nrows_tabulate, ncols_tabulate by lia. rewrite Hr.
  replace (Z.max 0 (r * 2 + 3)) with (r * 2 + 3)%Z by lia.
  replace ((r * 2 + 3) / 2)%Z with (r + 1)%Z
    by (apply Z.div_unique with 1%Z; lia).
  apply in_map_iff. exists ((dy + (r + 1))%Z, (dx + (r + 1))%Z).
  cbn [fst snd]. split; [f_equal; lia |].
  apply filter_In. split.
  - apply all_pixels_In. cbn [fst snd]. lia.
  - cbn [fst snd]. rewrite get_tabulate by lia. cbv zeta.
    apply (proj2 (Dist_ltb_pos _ _ _ Hc Hs)).
    replace (2 * (dy + (r + 1)) - (r * 2 + 3 - 1))%Z with (2 * dy)%Z by lia.
    replace (2 * (dx + (r + 1)) - (r * 2 + 3 - 1))%Z with (2 * dx)%Z by lia.
    assert (E : (2 * dy * (2 * dy) + 2 * dx * (2 * dx)) # 4
                == inject_Z (dy * dy + dx * dx)).
    { unfold Qeq. cbn [Qnum Qden inject_Z]. ring. }
    now rewrite E.
Qed.

(** ** The maximum filter *)

Lemma reflect_inside (n i : Z) : (0 <= i < n)%Z -> reflect n i = i.
Proof.
  intros H. unfold reflect.
  destruct (n <=? 1)%Z eqn:E; [lia |].
  rewrite Z.mod_small by lia.
  now replace (i <? n)%Z with true by lia.
Qed.

Lemma maximum_ge_init (l : list Q) (x : Q) : x <= maximum x l.
Proof.
  revert x. induction l as [| y l IH]; intros x; simpl; [lra |].
  apply Qle_trans with (Qmax x y); [apply Q.le_max_l | apply IH].
Qed.

Lemma maximum_ge (l : list Q) (x y : Q) : In y (x :: l) -> y <= maximum x l.
Proof.
  revert x. induction l as [| z l IH]; intros x H; simpl.
  - destruct H as [-> | []]. apply Qle_refl.
  - destruct H as [-> | [-> | H]].
    + apply Qle_trans with (Qmax y z); [apply Q.le_max_l | apply maximum_ge_init].
    + apply Qle_trans with (Qmax x y); [apply Q.le_max_r | apply maximum_ge_init].
    + apply IH. now right.
Qed.

(** The filtered value at a pixel dominates the input at every pixel of the
    array lying under the footprint. *)
Lemma maximum_filter_ge (data : list (list Q)) (fp : list (list bool))
      (flt : list (list Q)) (i j dy dx : Z) :
  maximum_filter data fp = Ok flt ->
  In (dy, dx) (footprint_offsets fp) ->
  (0 <= i < nrows data)%Z -> (0 <= j < ncols data)%Z ->
  (0 <= i + dy < nrows data)%Z -> (0 <= j + dx < ncols data)%Z ->
  get 0 data (i + dy) (j + dx) <= get 0 flt i j.
Proof.
  unfold maximum_filter. intros Hflt Hin Hi Hj Hi' Hj'.
  destruct (footprint_offsets fp) as [| o offs] eqn:E; [discriminate |].
  injection Hflt as <-. rewrite get_tabulate by assumption.
  assert (Hw : In (get 0 data (i + dy) (j + dx))
                  (window data (o :: offs) i j)).
  { unfold window. apply in_map_iff. exists (dy, dx). simpl fst. simpl snd.
    now rewrite !reflect_inside by assumption. }
  apply maximum_ge. exact Hw.
Qed.

(** ** The thresholded local-maximum array *)

Lemma get_inside {A : Type} (d : A) (a : list (list A)) (i j : Z) :
  get d a i j <> d -> (0 <= i < nrows a)%Z /\ (0 <= j)%Z.
Proof.
  unfold get, nrows. intros H.
  destruct (0 <=? i)%Z eqn:Ei; [| now destruct H].
  destruct (0 <=? j)%Z eqn:Ej; [| now destruct H]. simpl in H.
  destruct (Nat.lt_ge_cases (Z.to_nat i) (length a)) as [Hlt | Hge]; [lia |].
  rewrite (nth_overflow a) in H by exact Hge. now destruct (Z.to_nat j).
Qed.

Lemma get_tabulate_inside {A : Type} (d : A) (nr nc : Z) (f : Z -> Z -> A)
      (i j : Z) :
  get d (tabulate nr nc f) i j <> d -> (0 <= i < nr)%Z /\ (0 <= j < nc)%Z.
Proof.
  intros H. destruct (get_inside _ _ _ _ H) as [Hi Hj].
  rewrite nrows_tabulate in Hi. split; [lia |].
  destruct (Z_lt_ge_dec j nc) as [Hlt | Hge]; [lia | exfalso].
  apply H. unfold get, tabulate.
  replace (0 <=? i)%Z with true by lia. replace (0 <=? j)%Z with true by lia.
  simpl. rewrite nth_map_range by lia.
  apply nth_overflow. rewrite length_map, range_length. lia.
Qed.

Lemma local_max_Ok (m : Map) (T s : Q) (lm : list (list bool)) :
  local_max m T s = Ok lm ->
  exists fp flt,
    region m s = Ok fp /\ maximum_filter (counts m) fp = Ok flt /\
    lm = tabulate (nrows (counts m)) (ncols (counts m)) (fun i j =>
           Qeq_bool (get 0 flt i j) (get 0 (counts m) i j)
           && negb (negb (Qle_bool T (get 0 (counts m) i j)))).
Proof.
  unfold local_max. destruct (region m s) as [fp | e]; [| discriminate].
  destruct (maximum_filter (counts m) fp) as [flt | e] eqn:E; [| discriminate].
  intros [= <-]. now exists fp, flt.
Qed.

(** A set pixel of the array lies inside the grid, equals the filtered
    value there and reaches the threshold. *)
Lemma local_max_true (m : Map) (T s : Q) (lm : list (list bool)) (i j : Z) :
  local_max m T s = Ok lm -> get false lm i j = true ->
  (0 <= i < nrows (counts m))%Z /\ (0 <= j < ncols (counts m))%Z /\
  T <= get 0 (counts m) i j /\
  exists fp flt,
    region m s = Ok fp /\ maximum_filter (counts m) fp = Ok flt /\
    get 0 flt i j == get 0 (counts m) i j.
Proof.
  intros Hlm Hget.
  destruct (local_max_Ok _ _ _ _ Hlm) as (fp & flt & Hfp & Hflt & ->).
  assert (Hin : (0 <= i < nrows (counts m))%Z /\ (0 <= j < ncols (counts m))%Z).
  { apply (get_tabulate_inside false) with (f := fun i j =>
      Qeq_bool (get 0 flt i j) (get 0 (counts m) i j)
      && negb (negb (Qle_bool T (get 0 (counts m) i j)))).
    rewrite Hget. discriminate. }
  destruct Hin as [Hi Hj]. rewrite get_tabulate in Hget by assumption.
  apply andb_true_iff in Hget as [H1 H2].
  rewrite negb_involutive in H2.
  apply Qeq_bool_iff in H1. apply Qle_bool_iff in H2.
  split; [exact Hi |]. split; [exact Hj |]. split; [exact H2 |].
  now exists fp, flt.
Qed.

(** Conversely, inside the grid the array is set exactly at the local
    maxima that reach the threshold. *)
Lemma local_max_spec (m : Map) (T s : Q) (lm fp : list (list bool))
      (flt : list (list Q)) (i j : Z) :
  local_max m T s = Ok lm ->
  region m s = Ok fp -> maximum_filter (counts m) fp = Ok flt ->
  (0 <= i < nrows (counts m))%Z -> (0 <= j < ncols (counts m))%Z ->
  get false lm i j
  = Qeq_bool (get 0 flt i j) (get 0 (counts m) i j)
    && Qle_bool T (get 0 (counts m) i j).
Proof.
  intros Hlm Hfp Hflt Hi Hj.
  destruct (local_max_Ok _ _ _ _ Hlm) as (fp' & flt' & Hfp' & Hflt' & ->).
  rewrite Hfp in Hfp'. injection Hfp' as <-.
  rewrite Hflt in Hflt'. injection Hflt' as <-.
  rewrite get_tabulate by assumption. now rewrite negb_involutive.
Qed.

(** Two local maxima closer than the separation carry the same value: each
    lies under the footprint centred on the other. *)
Lemma close_maxima_equal (m : Map) (T1 T2 s : Q) (lm1 lm2 : list (list bool))
      (p q : pixel) :
  0 < pixel_scale m -> 0 < s ->
  local_max m T1 s = Ok lm1 -> local_max m T2 s = Ok lm2 ->
  get false lm1 (fst p) (snd p) = true ->
  get false lm2 (fst q) (snd q) = true ->
  inject_Z (dist2 p q) * (pixel_scale m * pixel_scale m) < s * s ->
  get 0 (counts m) (fst p) (snd p) == get 0 (counts m) (fst q) (snd q).
Proof.
  intros Hc Hs H1 H2 Hp Hq Hd.
  destruct (local_max_true _ _ _ _ _ _ H1 Hp)
    as (Hpi & Hpj & _ & fp & flt & Hfp & Hflt & Ep).
  destruct (local_max_true _ _ _ _ _ _ H2 Hq)
    as (Hqi & Hqj & _ & fp' & flt' & Hfp' & Hflt' & Eq).
  rewrite Hfp in Hfp'. injection Hfp' as <-.
  rewrite Hflt in Hflt'. injection Hflt' as <-.
  assert (Hpq : In ((fst q - fst p)%Z, (snd q - snd p)%Z)
                   (footprint_offsets fp)).
  { now apply (footprint_offsets_disc m s). }
  assert (Hqp : In ((fst p - fst q)%Z, (snd p - snd q)%Z)
                   (footprint_offsets fp)).
  { apply (footprint_offsets_disc m s); try assumption.
    unfold dist2 in Hd.
    now replace ((fst p - fst q) * (fst p - fst q)
                 + (snd p - snd q) * (snd p - snd q))%Z
      with ((fst q - fst p) * (fst q - fst p)
            + (snd q - snd p) * (snd q - snd p))%Z by ring. }
  pose proof (maximum_filter_ge _ _ _ (fst p) (snd p) _ _ Hflt Hpq Hpi Hpj)
    as Gp.
  pose proof (maximum_filter_ge _ _ _ (fst q) (snd q) _ _ Hflt Hqp Hqi Hqj)
    as Gq.
  replace (fst p + (fst q - fst p))%Z with (fst q) in Gp by lia.
  replace (snd p + (snd q - snd p))%Z with (snd q) in Gp by lia.
  replace (fst q + (fst p - fst q))%Z with (fst p) in Gq by lia.
  replace (snd q + (snd p - snd q))%Z with (snd p) in Gq by lia.
  specialize (Gp Hqi Hqj). specialize (Gq Hpi Hpj).
  rewrite Ep in Gp. rewrite Eq in Gq. lra.
Qed.

(** ** Features *)

Lemma pixel_eqb_eq (p q : pixel) : pixel_eqb p q = true <-> p = q.
Proof.
  destruct p as [a b], q as [c d]. unfold pixel_eqb. simpl.
  rewrite andb_true_iff, !Z.eqb_eq. split.
  - now intros [-> ->].
  - now intros [= -> ->].
Qed.

Lemma mem_In (p : pixel) (l : list pixel) : mem p l = true <-> In p l.
Proof.
  unfold mem. rewrite existsb_exists. split.
  - intros [q [Hq E]]. apply pixel_eqb_eq in E. now subst.
  - intros H. exists p. split; [exact H | now apply pixel_eqb_eq].
Qed.

Lemma mem_app (p : pixel) (l1 l2 : list pixel) :
  mem p (l1 ++ l2) = mem p l1 || mem p l2.
Proof. unfold mem. apply existsb_app. Qed.

Lemma filter_none {A : Type} (f : A -> bool) (l : list A) :
  (forall x, In x l -> f x = false) -> filter f l = [].
Proof.
  induction l as [| x l IH]; intros H; simpl; [reflexivity |].
  rewrite (H x) by now left. apply IH. intros y Hy. apply H. now right.
Qed.

Section LabelFacts.
Variable structure : Z -> Z -> bool.
Variable pixels : list pixel.

Section OneInput.
Variable input : pixel -> bool.

Lemma flood_app (fuel : nat) (comp : list pixel) :
  exists more, flood structure input pixels fuel comp = comp ++ more.
Proof.
  revert comp. induction fuel as [| fuel IH]; intros comp; simpl.
  - exists []. now rewrite app_nil_r.
  - destruct (IH (grow structure input pixels comp)) as [more ->].
    unfold grow. rewrite <- app_assoc. now eexists.
Qed.

(** A property of the seed that every added set pixel also has holds on
    the whole feature. *)
Lemma flood_Forall (P : pixel -> Prop) (fuel : nat) (comp : list pixel) :
  (forall p q, P p -> In q pixels -> input q = true ->
               connected structure p q = true -> P q) ->
  Forall P comp ->
  Forall P (flood structure input pixels fuel comp).
Proof.
  intros Hstep. revert comp.
  induction fuel as [| fuel IH]; intros comp Hc; simpl; [exact Hc |].
  apply IH. unfold grow. apply Forall_app. split; [exact Hc |].
  apply Forall_forall. intros q Hq. apply filter_In in Hq as [Hq Hf].
  apply andb_true_iff in Hf as [Hf Hex].
  apply andb_true_iff in Hf as [Hin _].
  apply existsb_exists in Hex as [p [Hp Hpq]].
  rewrite Forall_forall in Hc. eauto.
Qed.

Lemma label_scan_In (todo seen c : list pixel) :
  In c (label_scan structure input pixels todo seen) ->
  exists p, In p todo /\ input p = true /\
            c = flood structure input pixels (length pixels) [p].
Proof.
  revert seen. induction todo as [| p todo IH]; intros seen H; simpl in H.
  - destruct H.
  - destruct (input p && negb (mem p seen)) eqn:E.
    + destruct H as [<- | H].
      * exists p. apply andb_true_iff in E as [E _].
        split; [now left | now split].
      * destruct (IH _ H) as [p' [H1 H2]]. exists p'.
        split; [now right | exact H2].
    + destruct (IH _ H) as [p' [H1 H2]]. exists p'.
      split; [now right | exact H2].
Qed.

(** Every pixel of a feature is a set pixel of the input. *)
Lemma label_scan_set (todo seen c : list pixel) (q : pixel) :
  In c (label_scan structure input pixels todo seen) -> In q c ->
  input q = true.
Proof.
  intros Hc Hq. apply label_scan_In in Hc as (p & _ & Hp & ->).
  assert (F : Forall (fun q => input q = true)
                     (flood structure input pixels (length pixels) [p])).
  { apply flood_Forall; [auto | now constructor]. }
  rewrite Forall_forall in F. now apply F.
Qed.

(** A feature starts with the pixel that seeded it. *)
Lemma label_scan_seed (todo seen c : list pixel) :
  In c (label_scan structure input pixels todo seen) ->
  exists p more, c = p :: more /\ input p = true.
Proof.
  intros Hc. apply label_scan_In in Hc as (p & _ & Hp & ->).
  destruct (flood_app (length pixels) [p]) as [more ->].
  now exists p, more.
Qed.
(** The set pixels not yet in [comp]: the flood fill can only add these. *)
Lemma filter_length_lt {A : Type} (f g : A -> bool) (l : list A) (a : A) :
  (forall x, f x = true -> g x = true) ->
  In a l -> g a = true -> f a = false ->
  (length (filter f l) < length (filter g l))%nat.
Proof.
  intros Hfg. induction l as [| x l IH]; intros Ha Hg Hf; [destruct Ha |].
  assert (Hle : forall l', (length (filter f l') <= length (filter g l'))%nat).
  { induction l' as [| y l' IH']; simpl; [lia |].
    destruct (f y) eqn:E; [rewrite (Hfg y E); simpl; lia |].
    destruct (g y); simpl; lia. }
  simpl. destruct Ha as [-> | Ha].
  - rewrite Hf, Hg. simpl. specialize (Hle l). lia.
  - specialize (IH Ha Hg Hf).
    destruct (f x) eqn:E; [rewrite (Hfg x E); simpl; lia |].
    destruct (g x); simpl; lia.
Qed.

Lemma grow_fixed (comp : list pixel) (fuel : nat) :
  grow structure input pixels comp = comp ->
  flood structure input pixels fuel comp = comp.
Proof.
  intros H. induction fuel as [| fuel IH]; simpl; [reflexivity |].
  now rewrite H.
Qed.

(** The fuel of [label_scan] is enough: the flood fill stops on a feature
    that no set pixel touches from outside. *)
Lemma flood_closed (fuel : nat) (comp : list pixel) :
  (length (filter (fun q => input q && negb (mem q comp)) pixels) <= fuel)%nat ->
  grow structure input pixels (flood structure input pixels fuel comp)
  = flood structure input pixels fuel comp.
Proof.
  revert comp. induction fuel as [| fuel IH]; intros comp Hm.
  - simpl. unfold grow.
    rewrite filter_none; [apply app_nil_r |].
    intros q Hq.
    destruct (input q && negb (mem q comp)) eqn:E; [| reflexivity].
    assert (Hin : In q (filter (fun q => input q && negb (mem q comp))
                               pixels)) by (apply filter_In; now split).
    destruct (filter _ pixels); [destruct Hin | simpl in Hm; lia].
  - simpl.
    destruct (filter (fun q => input q && negb (mem q comp)
                               && existsb (fun p => connected structure p q)
                                          comp) pixels) as [| a added] eqn:E.
    + assert (Hg : grow structure input pixels comp = comp)
        by (unfold grow; rewrite E; apply app_nil_r).
      rewrite Hg, (grow_fixed comp fuel Hg). exact Hg.
    + apply IH.
      assert (Ha : In a (a :: added)) by now left.
      rewrite <- E in Ha. apply filter_In in Ha as [Ha Hp].
      apply andb_true_iff in Hp as [Hp _].
      apply andb_true_iff in Hp as [Hi Hn]. apply negb_true_iff in Hn.
      assert (Hlt : (length (filter (fun q => input q
                                      && negb (mem q (grow structure input
                                                           pixels comp)))
                                    pixels)
                     < length (filter (fun q => input q
                                         && negb (mem q comp)) pixels))%nat).
      { apply filter_length_lt with a.
        - intros x Hx. apply andb_true_iff in Hx as [H1 H2].
          apply negb_true_iff in H2. unfold grow in H2.
          rewrite mem_app in H2. apply orb_false_iff in H2 as [H2 _].
          now rewrite H1, H2.
        - exact Ha.
        - now rewrite Hi, Hn.
        - unfold grow. rewrite E, mem_app.
          assert (Hm' : mem a (a :: added) = true)
            by (apply mem_In; now left).
          rewrite Hm', orb_true_r. now rewrite Hi. }
      lia.
Qed.

(** Every set pixel scanned is already labelled or gets into a feature. *)
Lemma label_scan_covers (todo seen : list pixel) (p : pixel) :
  In p todo -> input p = true ->
  mem p seen = true
  \/ exists c, In c (label_scan structure input pixels todo seen) /\ In p c.
Proof.
  revert seen. induction todo as [| x todo IH]; intros seen Hp Hi;
    [destruct Hp |].
  simpl. destruct Hp as [-> | Hp].
  - rewrite Hi. destruct (mem p seen); [now left | right]. simpl.
    eexists. split; [now left |].
    destruct (flood_app (length pixels) [p]) as [more ->]. now left.
  - destruct (input x && negb (mem x seen)).
    + destruct (IH (flood structure input pixels (length pixels) [x] ++ seen)
                   Hp Hi) as [Hs | (c & Hc & Hpc)].
      * rewrite mem_app in Hs. apply orb_true_iff in Hs as [Hs | Hs].
        -- right. eexists. split; [now left | now apply mem_In].
        -- now left.
      * right. exists c. split; [now right | exact Hpc].
    + destruct (IH seen Hp Hi) as [Hs | (c & Hc & Hpc)]; [now left |].
      right. now exists c.
Qed.
End OneInput.

(** Two inputs, the second one a part of the first that is closed under
    the connectivity: a set pixel of the first input touching a set pixel
    of the second is set in the second too. *)
Section TwoInputs.
Variables input1 input2 : pixel -> bool.
Hypothesis structure_sym :
  forall p q, connected structure p q = connected structure q p.
Hypothesis sub : forall p, input2 p = true -> input1 p = true.
Hypothesis closed :
  forall p q, input2 p = true -> input1 q = true ->
              connected structure p q = true -> input2 q = true.

Lemma grow_agree (comp : list pixel) :
  Forall (fun p => input2 p = true) comp ->
  grow structure input2 pixels comp = grow structure input1 pixels comp.
Proof.
  intros Hc. unfold grow. f_equal. apply filter_ext_in. intros q _.
  destruct (existsb (fun p => connected structure p q) comp) eqn:E.
  - apply existsb_exists in E as [p [Hp Hpq]].
    rewrite Forall_forall in Hc.
    destruct (input1 q) eqn:E1.
    + now rewrite (closed p q (Hc p Hp) E1 Hpq).
    + destruct (input2 q) eqn:E2; [| reflexivity].
      apply sub in E2. congruence.
  - now rewrite !andb_false_r.
Qed.

Lemma flood_agree (fuel : nat) (comp : list pixel) :
  Forall (fun p => input2 p = true) comp ->
  flood structure input2 pixels fuel comp
  = flood structure input1 pixels fuel comp.
Proof.
  revert comp. induction fuel as [| fuel IH]; intros comp Hc; simpl.
  - reflexivity.
  - rewrite <- grow_agree by exact Hc. apply IH.
    change (Forall (fun p => input2 p = true)
                   (flood structure input2 pixels 1 comp)).
    apply flood_Forall; auto.
Qed.

(** A feature of the first input seeded outside the second input stays
    outside it. *)
Lemma flood_outside (fuel : nat) (p : pixel) :
  input1 p = true -> input2 p = false ->
  Forall (fun q => input2 q = false)
         (flood structure input1 pixels fuel [p]).
Proof.
  intros H1 H2.
  assert (F : Forall (fun q => input1 q = true /\ input2 q = false)
                     (flood structure input1 pixels fuel [p])).
  { apply flood_Forall; [| now repeat constructor].
    intros a b [Ha1 Ha2] _ Hb Hab. split; [exact Hb |].
    destruct (input2 b) eqn:E; [| reflexivity].
    rewrite structure_sym in Hab.
    rewrite (closed b a E Ha1 Hab) in Ha2. discriminate. }
  eapply Forall_impl; [| exact F]. now intros q [_ H].
Qed.

(** Restricting the input to such a part cannot create features. *)
Lemma label_scan_length_le (todo seen1 seen2 : list pixel) :
  (forall q, input2 q = true -> mem q seen2 = mem q seen1) ->
  (length (label_scan structure input2 pixels todo seen2)
   <= length (label_scan structure input1 pixels todo seen1))%nat.
Proof.
  revert seen1 seen2.
  induction todo as [| p todo IH]; intros seen1 seen2 Hseen; simpl.
  - lia.
  - destruct (input2 p) eqn:E2.
    + rewrite (sub p E2), (Hseen p E2). simpl.
      destruct (mem p seen1) eqn:Em; simpl.
      * now apply IH.
      * rewrite flood_agree by (constructor; [exact E2 | constructor]).
        simpl. apply le_n_S, IH. intros q Hq.
        now rewrite !mem_app, (Hseen q Hq).
    + simpl. destruct (input1 p && negb (mem p seen1)) eqn:E1.
      * simpl. apply Nat.le_le_succ_r, IH. intros q Hq.
        rewrite mem_app, (Hseen q Hq).
        apply andb_true_iff in E1 as [E1 _].
        pose proof (flood_outside (length pixels) p E1 E2) as F.
        destruct (mem q (flood structure input1 pixels (length pixels)
                               [p])) eqn:Em; [| reflexivity].
        apply mem_In in Em. rewrite Forall_forall in F.
        rewrite (F q Em) in Hq. discriminate.
      * now apply IH.
Qed.
End TwoInputs.
End LabelFacts.

(** The features returned by [label] are whole: no set pixel touches a
    feature from outside, and every set pixel of the thresholded array
    belongs to a feature. *)
Lemma label_closed (lm : list (list bool)) (f : list pixel) :
  In f (label lm) ->
  grow (generate_binary_structure 1)
       (fun p => get false lm (fst p) (snd p))
       (all_pixels (nrows lm) (ncols lm)) f = f.
Proof.
  unfold label, label_with. intros H.
  apply label_scan_In in H as (p & _ & _ & ->).
  apply flood_closed, filter_length_le.
Qed.

Lemma label_covers (m : Map) (T s : Q) (lm : list (list bool)) (i j : Z) :
  local_max m T s = Ok lm -> get false lm i j = true ->
  exists f, In f (label lm) /\ In (i, j) f.
Proof.
  intros Hlm Hget.
  destruct (local_max_true _ _ _ _ _ _ Hlm Hget) as (Hi & Hj & _).
  assert (Hp : In (i, j) (all_pixels (nrows lm) (ncols lm))).
  { destruct (local_max_Ok _ _ _ _ Hlm) as (fp & flt & _ & _ & ->).
    apply all_pixels_tabulate;
      [apply nrows_nonneg | apply ncols_nonneg | now apply all_pixels_In]. }
  unfold label, label_with.
  destruct (label_scan_covers (generate_binary_structure 1)
              (all_pixels (nrows lm) (ncols lm))
              (fun p => get false lm (fst p) (snd p))
              (all_pixels (nrows lm) (ncols lm)) [] (i, j) Hp Hget)
    as [Hs | Hc]; [discriminate | exact Hc].
Qed.

(** ** Claims about [find_peaks] *)

Lemma find_peaks_amp (m : Map) (T s : Q) (peaks : list Peak) (p : Peak) :
  find_peaks m T s = Ok peaks -> In p peaks ->
  amp p = get 0 (counts m) (iy p) (ix p).
Proof.
  intros H Hp. apply find_peaks_Ok in H as (lm & _ & ->).
  apply sorted_desc_In, in_map_iff in Hp as (sl & <- & _). reflexivity.
Qed.

Lemma find_peaks_length (m : Map) (T s : Q) (peaks : list Peak)
      (lm : list (list bool)) :
  find_peaks m T s = Ok peaks -> local_max m T s = Ok lm ->
  length peaks = length (label lm).
Proof.
  intros H Hlm. apply find_peaks_Ok in H as (lm' & Hlm' & ->).
  rewrite Hlm in Hlm'. injection Hlm' as <-.
  unfold find_objects. now rewrite sorted_desc_length, !length_map.
Qed.

(** The detection succeeds whenever the pixel scale and the separation are
    positive. *)
Lemma find_peaks_total (m : Map) (T s : Q) :
  0 < pixel_scale m -> 0 < s -> exists peaks, find_peaks m T s = Ok peaks.
Proof.
  intros Hc Hs. unfold find_peaks, local_max.
  destruct (region m s) as [fp | e] eqn:Hfp.
  - assert (Hin : In (0%Z, 0%Z) (footprint_offsets fp)).
    { apply (footprint_offsets_disc m s); try assumption.
      assert (E : inject_Z (0 * 0 + 0 * 0) == 0) by reflexivity.
      rewrite E. assert (0 < s * s) by (apply Qmult_lt_0_compat; assumption).
      lra. }
    unfold maximum_filter.
    destruct (footprint_offsets fp); [destruct Hin | eauto].
  - exfalso. unfold region in Hfp.
    destruct (Qeq_bool (pixel_scale m) 0) eqn:E.
    + apply Qeq_bool_iff in E. lra.
    + destruct (_ <? 0)%Z eqn:E'; [| discriminate].
      assert (Hq : 0 <= s / pixel_scale m)
        by (apply Qle_shift_div_l; [assumption | lra]).
      rewrite Qtrunc_floor in E' by exact Hq.
      apply (Qfloor_resp_le 0) in Hq.
      change (Qfloor 0) with 0%Z in Hq. lia.
Qed.

(** X20.  On a grid of finite values the list returned by [find_peaks] is
    sorted by amplitude in descending order: for all indices [i < j],
    [peaks[i].amp >= peaks[j].amp].  (C7 states this of every call.  The
    amplitudes here are rationals; an amplitude that is not a number, which
    [sorted] cannot order, enters the list only where the start of a
    bounding box lies outside its feature, the defect of C2.) *)
Theorem find_peaks_sorted_descending
        (m : Map) (T s : Q) (peaks : list Peak) (d : Peak) (i j : nat) :
  find_peaks m T s = Ok peaks ->
  (i < j < length peaks)%nat ->
  amp (nth j peaks d) <= amp (nth i peaks d).
Proof.
  intros H Hij. apply find_peaks_Ok in H as (lm & _ & ->).
  apply descending_nth; [apply sorted_desc_descending | exact Hij].
Qed.

Lemma find_peaks_sorted_descending_witness :
  find_peaks Sample.three 5 1
  = Ok [mkPeak 8 0 (mkSkyDir 8 0) 12; mkPeak 4 0 (mkSkyDir 4 0) 9;
        mkPeak 0 0 (mkSkyDir 0 0) 6]
  /\ 9 <= 12.
Proof.
  assert (H : find_peaks Sample.three 5 1
              = Ok [mkPeak 8 0 (mkSkyDir 8 0) 12; mkPeak 4 0 (mkSkyDir 4 0) 9;
                    mkPeak 0 0 (mkSkyDir 0 0) 6]) by (vm_compute; reflexivity).
  split; [exact H |].
  apply (find_peaks_sorted_descending Sample.three 5 1 _
           (mkPeak 0 0 (mkSkyDir 0 0) 0) 0 1 H).
  simpl. lia.
Defined.

(** C2.  [find_peaks] can return a peak whose amplitude is below the
    threshold: on the three-pixel plateau of [Sample.corner], threshold 7
    and separation 1.5, the only feature is reported at the start of its
    bounding box, pixel (0, 0), whose value 5 is below 7. *)
Theorem find_peaks_amplitude_below_threshold :
  find_peaks Sample.corner 7 (3 # 2) = Ok [mkPeak 0 0 (mkSkyDir 0 0) 5]
  /\ exists peaks p,
       find_peaks Sample.corner 7 (3 # 2) = Ok peaks /\ In p peaks /\
       amp p < 7.
Proof.
  assert (H : find_peaks Sample.corner 7 (3 # 2)
              = Ok [mkPeak 0 0 (mkSkyDir 0 0) 5]) by (vm_compute; reflexivity).
  split; [exact H |].
  exists [mkPeak 0 0 (mkSkyDir 0 0) 5], (mkPeak 0 0 (mkSkyDir 0 0) 5).
  split; [exact H |]. split; [now left |]. reflexivity.
Qed.

(** The features behind the returned peaks. *)
Lemma find_peaks_feature (m : Map) (T s : Q) (peaks : list Peak) (p : Peak) :
  find_peaks m T s = Ok peaks -> In p peaks ->
  exists lm c, local_max m T s = Ok lm /\ In c (label lm) /\
               peak_pixel p = origin c.
Proof.
  intros H Hp. apply find_peaks_Ok in H as (lm & Hlm & ->).
  apply sorted_desc_In, in_map_iff in Hp as (sl & <- & Hsl).
  apply in_map_iff in Hsl as (c & <- & Hc).
  now exists lm, c.
Qed.

(** C10, the example given with the claim.  Two set pixels touching by a
    corner are two features, not one, and each is reported at its own
    pixel: [label] is called without a structuring element, so pixels are
    connected along rows and columns only. *)
Lemma diagonal_pair_is_two_features :
  exists lm,
    local_max Sample.diagonal 5 (3 # 2) = Ok lm /\
    lm = [[false; true]; [true; false]] /\
    label lm = [[(0, 1)%Z]; [(1, 0)%Z]] /\
    forall c, In c (label lm) -> In (origin c) c.
Proof.
  exists [[false; true]; [true; false]].
  split; [vm_compute; reflexivity |]. split; [reflexivity |].
  split; [vm_compute; reflexivity |].
  intros c Hc. vm_compute in Hc.
  destruct Hc as [<- | [<- | []]]; vm_compute; auto.
Qed.

(** Sorting rearranges the list and neither drops nor repeats an entry. *)
Lemma insert_desc_Permutation (p : Peak) (l : list Peak) :
  Permutation (insert_desc p l) (p :: l).
Proof.
  induction l as [| q l IH]; simpl; [apply Permutation_refl |].
  destruct (Qle_bool (amp q) (amp p)); [apply Permutation_refl |].
  apply Permutation_trans with (q :: p :: l);
    [now apply perm_skip | apply perm_swap].
Qed.

Lemma sorted_desc_Permutation (l : list Peak) :
  Permutation (sorted_desc l) l.
Proof.
  induction l as [| p l IH]; simpl; [apply perm_nil |].
  apply Permutation_trans with (p :: sorted_desc l);
    [apply insert_desc_Permutation | now apply perm_skip].
Qed.

(** The reported pixels are the starts of the bounding boxes of the
    features, one per feature. *)
Lemma find_peaks_origins (m : Map) (T s : Q) (peaks : list Peak)
      (lm : list (list bool)) :
  find_peaks m T s = Ok peaks -> local_max m T s = Ok lm ->
  Permutation (map peak_pixel peaks) (map origin (label lm)).
Proof.
  intros H Hlm. apply find_peaks_Ok in H as (lm' & Hlm' & ->).
  rewrite Hlm in Hlm'. injection Hlm' as <-.
  apply Permutation_trans
    with (map peak_pixel (map (peak_of_slice m) (find_objects (label lm)))).
  - apply Permutation_map, sorted_desc_Permutation.
  - unfold find_objects. rewrite !map_map. apply Permutation_refl.
Qed.

Lemma find_peaks_skydir (m : Map) (T s : Q) (peaks : list Peak) (p : Peak) :
  find_peaks m T s = Ok peaks -> In p peaks ->
  skydir p = from_pixel (wcs m) (ix p) (iy p).
Proof.
  intros H Hp. apply find_peaks_Ok in H as (lm & _ & ->).
  apply sorted_desc_In, in_map_iff in Hp as (sl & <- & _). reflexivity.
Qed.

(** C10.  [find_peaks] reports every feature of the thresholded
    local-maximum array once, at the start of its bounding box: the pixels
    of the returned peaks are, up to the order of the list, the bounding-box
    starts of the features, one peak per feature, and every peak carries
    the grid value and the sky direction of its pixel.  For some inputs (an
    L-shaped feature of three pixels, as in [Sample.corner]) that pixel is
    not a pixel of the feature: it is not a local maximum and its value is
    the value of a pixel outside the feature. *)
Theorem find_peaks_reports_bounding_box_origin :
  (forall m T s peaks,
      find_peaks m T s = Ok peaks ->
      exists lm,
        local_max m T s = Ok lm /\
        Permutation (map peak_pixel peaks) (map origin (label lm)) /\
        forall p, In p peaks ->
                  amp p = get 0 (counts m) (iy p) (ix p) /\
                  skydir p = from_pixel (wcs m) (ix p) (iy p))
  /\
  (exists m T s peaks p lm c fp flt,
      find_peaks m T s = Ok peaks /\ In p peaks /\
      local_max m T s = Ok lm /\ In c (label lm) /\
      peak_pixel p = origin c /\
      ~ In (origin c) c /\
      get false lm (iy p) (ix p) = false /\
      region m s = Ok fp /\ maximum_filter (counts m) fp = Ok flt /\
      ~ get 0 flt (iy p) (ix p) == get 0 (counts m) (iy p) (ix p)).
Proof.
  split.
  - intros m T s peaks H.
    destruct (find_peaks_Ok _ _ _ _ H) as (lm & Hlm & _).
    exists lm. split; [exact Hlm |].
    split; [exact (find_peaks_origins _ _ _ _ _ H Hlm) |].
    intros p Hp. split.
    + exact (find_peaks_amp _ _ _ _ _ H Hp).
    + exact (find_peaks_skydir _ _ _ _ _ H Hp).
  - exists Sample.corner, 7, (3 # 2), [mkPeak 0 0 (mkSkyDir 0 0) 5],
      (mkPeak 0 0 (mkSkyDir 0 0) 5), [[false; true]; [true; true]],
      [(0, 1)%Z; (1, 1)%Z; (1, 0)%Z].
    eexists. eexists.
    split; [vm_compute; reflexivity |]. split; [now left |].
    split; [vm_compute; reflexivity |].
    split; [vm_compute; now left |].
    split; [reflexivity |].
    split; [vm_compute; intros [H | [H | [H | []]]]; discriminate |].
    split; [reflexivity |].
    split; [vm_compute; reflexivity |].
    split; [vm_compute; reflexivity |].
    vm_compute. discriminate.
Qed.

Lemma find_peaks_reports_bounding_box_origin_witness :
  exists lm,
    local_max Sample.corner 7 (3 # 2) = Ok lm /\
    Permutation (map peak_pixel [mkPeak 0 0 (mkSkyDir 0 0) 5])
                (map origin (label lm)) /\
    forall p, In p [mkPeak 0 0 (mkSkyDir 0 0) 5] ->
              amp p = get 0 (counts Sample.corner) (iy p) (ix p) /\
              skydir p = from_pixel (wcs Sample.corner) (ix p) (iy p).
Proof.
  apply (proj1 find_peaks_reports_bounding_box_origin
               Sample.corner 7 (3 # 2) [mkPeak 0 0 (mkSkyDir 0 0) 5]).
  vm_compute; reflexivity.
Defined.

(** A single-pixel maximum is a set pixel of the thresholded array. *)
Lemma single_pixel_maximum_set (m : Map) (T s : Q) (p : Peak)
      (lm : list (list bool)) :
  local_max m T s = Ok lm -> single_pixel_maximum m T s p ->
  get false lm (iy p) (ix p) = true.
Proof.
  intros Hlm (lm' & Hlm' & Hc). rewrite Hlm in Hlm'. injection Hlm' as <-.
  unfold label, label_with in Hc.
  apply (label_scan_set _ _ _ _ _ _ (peak_pixel p)) in Hc; [exact Hc |].
  now left.
Qed.





(** ** Raising the threshold *)

Lemma ncols_tabulate_indep {A B : Type} (nr nc : Z)
      (f : Z -> Z -> A) (g : Z -> Z -> B) :
  ncols (tabulate nr nc f) = ncols (tabulate nr nc g).
Proof.
  unfold ncols, tabulate. destruct (range nr); simpl; [reflexivity |].
  now rewrite !length_map.
Qed.

Lemma cross_symmetric (p q : pixel) :
  connected (generate_binary_structure 1) p q
  = connected (generate_binary_structure 1) q p.
Proof.
  unfold connected, generate_binary_structure.
  replace (fst p - fst q)%Z with (- (fst q - fst p))%Z by lia.
  replace (snd p - snd q)%Z with (- (snd q - snd p))%Z by lia.
  now rewrite !Z.abs_opp.
Qed.

Lemma cross_dist2 (p q : pixel) :
  connected (generate_binary_structure 1) p q = true -> (dist2 p q <= 1)%Z.
Proof.
  unfold connected, generate_binary_structure, dist2. intros H.
  apply andb_true_iff in H as [H H3]. apply andb_true_iff in H as [H1 H2].
  nia.
Qed.

(** C3, as stated, fails: with a separation below the pixel scale every
    pixel is its own local maximum; on [Sample.saddle] the threshold 5
    keeps one feature of three pixels, the threshold 8 splits it in two. *)
Lemma saddle_threshold_splits_feature :
  exists l1 l2,
    find_peaks Sample.saddle 5 (1 # 2) = Ok l1 /\
    find_peaks Sample.saddle 8 (1 # 2) = Ok l2 /\
    5 <= 8 /\ (length l1 < length l2)%nat.
Proof.
  exists [mkPeak 0 0 (mkSkyDir 0 0) 10],
    [mkPeak 0 0 (mkSkyDir 0 0) 10; mkPeak 2 0 (mkSkyDir 2 0) 10].
  split; [vm_compute; reflexivity |]. split; [vm_compute; reflexivity |].
  split; [discriminate | simpl; lia].
Qed.

(** C3, amended.  When the minimum separation exceeds the (positive) pixel
    scale, raising the threshold never increases the number of returned
    peaks. *)
Theorem find_peaks_threshold_monotone
        (m : Map) (T1 T2 s : Q) (l1 l2 : list Peak) :
  0 < pixel_scale m -> pixel_scale m < s -> T1 <= T2 ->
  find_peaks m T1 s = Ok l1 -> find_peaks m T2 s = Ok l2 ->
  (length l2 <= length l1)%nat.
Proof.
  intros Hc Hcs HT H1 H2.
  assert (Hs : 0 < s) by lra.
  destruct (find_peaks_Ok _ _ _ _ H1) as (lm1 & Hlm1 & _).
  destruct (find_peaks_Ok _ _ _ _ H2) as (lm2 & Hlm2 & _).
  rewrite (find_peaks_length _ _ _ _ _ H1 Hlm1),
          (find_peaks_length _ _ _ _ _ H2 Hlm2).
  unfold label, label_with.
  assert (Hshape : nrows lm2 = nrows lm1 /\ ncols lm2 = ncols lm1).
  { destruct (local_max_Ok _ _ _ _ Hlm1) as (? & ? & _ & _ & ->).
    destruct (local_max_Ok _ _ _ _ Hlm2) as (? & ? & _ & _ & ->).
    split; [now rewrite !nrows_tabulate | apply ncols_tabulate_indep]. }
  destruct Hshape as [-> ->].
  apply label_scan_length_le; try reflexivity.
  - exact cross_symmetric.
  - (* a pixel kept by the higher threshold is kept by the lower one *)
    intros p Hp.
    destruct (local_max_true _ _ _ _ _ _ Hlm2 Hp)
      as (Hi & Hj & HT2 & fp & flt & Hfp & Hflt & E).
    rewrite (local_max_spec _ _ _ _ _ _ _ _ Hlm1 Hfp Hflt Hi Hj).
    apply andb_true_iff. split.
    + now apply Qeq_bool_iff.
    + apply Qle_bool_iff. lra.
  - (* neighbouring local maxima carry the same value *)
    intros p q Hp Hq Hpq.
    destruct (local_max_true _ _ _ _ _ _ Hlm1 Hq)
      as (Hi & Hj & _ & fp & flt & Hfp & Hflt & E).
    destruct (local_max_true _ _ _ _ _ _ Hlm2 Hp) as (_ & _ & HT2 & _).
    rewrite (local_max_spec _ _ _ _ _ _ _ _ Hlm2 Hfp Hflt Hi Hj).
    assert (Heq : get 0 (counts m) (fst p) (snd p)
                  == get 0 (counts m) (fst q) (snd q)).
    { apply (close_maxima_equal m T2 T1 s lm2 lm1); try assumption.
      apply cross_dist2 in Hpq.
      assert (Hd : inject_Z (dist2 p q) <= 1)
        by (rewrite (Zle_Qle _ 1) in Hpq; exact Hpq).
      assert (Hsq : pixel_scale m * pixel_scale m < s * s)
        by now apply Qsquare_lt.
      assert (Hcc : 0 <= pixel_scale m * pixel_scale m)
        by (apply Qmult_le_0_compat; lra).
      apply Qle_lt_trans with (1 * (pixel_scale m * pixel_scale m)).
      - apply Qmult_le_compat_r; assumption.
      - lra. }
    apply andb_true_iff. split.
    + now apply Qeq_bool_iff.
    + apply Qle_bool_iff. rewrite <- Heq. exact HT2.
Qed.

Lemma find_peaks_threshold_monotone_witness :
  (length [mkPeak 8 0 (mkSkyDir 8 0) 12; mkPeak 4 0 (mkSkyDir 4 0) 9]
   <= length [mkPeak 8 0 (mkSkyDir 8 0) 12; mkPeak 4 0 (mkSkyDir 4 0) 9;
              mkPeak 0 0 (mkSkyDir 0 0) 6])%nat.
Proof.
  apply (find_peaks_threshold_monotone Sample.three 5 7 (3 # 2)).
  - reflexivity.
  - reflexivity.
  - discriminate.
  - vm_compute; reflexivity.
  - vm_compute; reflexivity.
Defined.

(** ** Running programs *)

Section RunFacts.
Context {Source St : Type} (h : Engine Source St).

Lemma run_bind {A B : Type} (p : Prog Source A) (f : A -> Prog Source B)
      (s : St) :
  run h (bind p f) s
  = match run h p s with
    | (tr, s', Ok a) =>
        let '(tr', s'', r) := run h (f a) s' in (tr ++ tr', s'', r)
    | (tr, s', Err e) => (tr, s', Err e)
    end.
Proof.
  revert s. induction p as [a | e | R c k IH]; intros s; simpl.
  - now destruct (run h (f a) s) as [[tr' s''] r].
  - reflexivity.
  - destruct (h R c s) as [[r s'] |]; [| reflexivity].
    rewrite IH. destruct (run h (k r) s') as [[tr1 s1] [a | e]].
    + now destruct (run h (f a) s1) as [[tr' s''] r'].
    + reflexivity.
Qed.

Lemma run_call {R : Type} (c : Call Source R) (s : St) :
  run h (call c) s
  = match h R c s with
    | Some (r, s') => ([ev c], s', Ok r)
    | None => ([ev c], s, Err EngineError)
    end.
Proof. unfold call. simpl. now destruct (h R c s) as [[r s'] |]. Qed.

(** A completed [bind] splits into its two completed halves. *)
Lemma run_bind_Ok {A B : Type} (p : Prog Source A) (f : A -> Prog Source B)
      (s s'' : St) (tr : list (Event Source)) (b : B) :
  run h (bind p f) s = (tr, s'', Ok b) ->
  exists tr1 s' a tr2,
    run h p s = (tr1, s', Ok a) /\ run h (f a) s' = (tr2, s'', Ok b) /\
    tr = tr1 ++ tr2.
Proof.
  rewrite run_bind. destruct (run h p s) as [[tr1 s'] [a | e]].
  - destruct (run h (f a) s') as [[tr2 s2] r] eqn:E. intros [= <- <- ->].
    now exists tr1, s', a, tr2.
  - discriminate.
Qed.

(** The calls of a [bind] are the calls of its first half followed, when
    that half completes, by those of the second. *)
Lemma run_bind_Forall {A B : Type} (P : Event Source -> Prop)
      (p : Prog Source A) (f : A -> Prog Source B) (s : St) :
  Forall P (fst (fst (run h p s))) ->
  (forall a s', Forall P (fst (fst (run h (f a) s')))) ->
  Forall P (fst (fst (run h (bind p f) s))).
Proof.
  intros Hp Hf. rewrite run_bind.
  destruct (run h p s) as [[tr1 s'] [a | e]]; simpl in *; [| exact Hp].
  specialize (Hf a s'). destruct (run h (f a) s') as [[tr2 s2] r].
  simpl in *. apply Forall_app. now split.
Qed.

Lemma run_call_Forall {R : Type} (P : Event Source -> Prop)
      (c : Call Source R) (s : St) :
  P (ev c) -> Forall P (fst (fst (run h (call c) s))).
Proof.
  intros H. rewrite run_call.
  destruct (h R c s) as [[r s'] |]; simpl; now constructor.
Qed.

Lemma run_for_in_Forall {X S : Type} (P : Event Source -> Prop)
      (body : X -> S -> Prog Source S) (l : list X) (acc : S) (s : St) :
  (forall x acc s, Forall P (fst (fst (run h (body x acc) s)))) ->
  Forall P (fst (fst (run h (for_in l acc body) s))).
Proof.
  intros Hb. revert acc s.
  induction l as [| x l IH]; intros acc s; simpl.
  - constructor.
  - apply run_bind_Forall; [apply Hb | intros; apply IH].
Qed.

(** A completed loop: its calls are those of the bodies, in order, and an
    invariant of the accumulator, indexed by the elements already visited,
    holds at the end. *)
Lemma run_for_in_Ok {X S : Type} (body : X -> S -> Prog Source S)
      (calls : X -> list (Event Source)) (I : list X -> S -> Prop) :
  (forall x acc s tr s' acc' visited,
      I visited acc -> run h (body x acc) s = (tr, s', Ok acc') ->
      tr = calls x /\ I (visited ++ [x]) acc') ->
  forall l visited acc s tr s' acc',
    I visited acc -> run h (for_in l acc body) s = (tr, s', Ok acc') ->
    tr = flat_map calls l /\ I (visited ++ l) acc'.
Proof.
  intros Hb. induction l as [| x l IH]; intros visited acc s tr s' acc' Hi H;
    simpl in H.
  - injection H as <- <- <-. now rewrite app_nil_r.
  - apply run_bind_Ok in H as (tr1 & s1 & a & tr2 & H1 & H2 & ->).
    destruct (Hb _ _ _ _ _ _ _ Hi H1) as [-> Hi'].
    destruct (IH _ _ _ _ _ _ Hi' H2) as [-> Hi''].
    rewrite <- app_assoc in Hi''. now split.
Qed.
End RunFacts.

Lemma flat_map_singleton {A B : Type} (f : A -> B) (l : list A) :
  flat_map (fun x => [f x]) l = map f l.
Proof. induction l as [| x l IH]; simpl; congruence. Qed.

Section RoundFacts.
Context {Source St : Type} (h : Engine Source St).
Variable create_source_name : SkyDir -> string.
Variables (config : Config) (kwargs : Kwargs).

Lemma run_call_Ok {R : Type} (c : Call Source R) (s s' : St)
      (tr : list (Event Source)) (r : R) :
  run h (call c) s = (tr, s', Ok r) -> tr = [ev c] /\ h R c s = Some (r, s').
Proof.
  rewrite run_call. destruct (h R c s) as [[r0 s0] |]; [| discriminate].
  now intros [= <- <- <-].
Qed.

Lemma run_lift_Ok {A : Type} (r : result A) (s s' : St)
      (tr : list (Event Source)) (a : A) :
  run h (lift r) s = (tr, s', Ok a) -> r = Ok a /\ tr = [] /\ s' = s.
Proof. destruct r; simpl; [now intros [= <- <- <-] | discriminate]. Qed.

Lemma run_call_then_Ok {R A : Type} (c : Call Source R) (v : R -> A)
      (s s' : St) (tr : list (Event Source)) (a : A) :
  run h (bind (call c) (fun r => Ret (v r))) s = (tr, s', Ok a) ->
  tr = [ev c] /\ exists r, h R c s = Some (r, s') /\ a = v r.
Proof.
  intros H. apply run_bind_Ok in H as (tr1 & s1 & r & tr2 & H1 & H2 & ->).
  apply run_call_Ok in H1 as [-> H1]. simpl in H2. injection H2 as <- <- <-.
  split; [reflexivity |]. now exists r.
Qed.

(** A completed round: the engine answered [tsmap], the detection returned
    its peaks, and the calls made are exactly [round_calls] for the promoted
    peaks; one source is read back per promoted peak. *)
Lemma iterate_Ok (iiter : Z) (s s' : St) (tr : list (Event Source))
      (srcs : list Source) :
  run h (_iterate Source create_source_name config iiter kwargs) s
  = (tr, s', Ok srcs) ->
  exists m s1 peaks,
    h TsMap (tsmap (round_label iiter) seed_src_dict false kwargs) s
    = Some (m, s1) /\
    let per_iter :=
      kwargs_get (kw_sources_per_iter kwargs) (sources_per_iter config) in
    find_peaks (sqrt_ts m)
               (kwargs_get (kw_sqrt_ts_threshold kwargs)
                           (sqrt_ts_threshold config))
               (kwargs_get (kw_min_separation kwargs)
                           (min_separation config)) = Ok peaks /\
    tr = round_calls create_source_name kwargs iiter m
                     (slice_to per_iter peaks) /\
    length srcs = length (slice_to per_iter peaks).
Proof.
  unfold _iterate. intros H.
  apply run_bind_Ok in H as (tr1 & s1 & m & tr2 & H1 & H & ->).
  apply run_call_Ok in H1 as [-> H1].
  apply run_bind_Ok in H as (tr2' & s2 & peaks & tr3 & H2 & H & ->).
  apply run_lift_Ok in H2 as (H2 & -> & ->).
  apply run_bind_Ok in H as (tr4 & s3 & names & tr5 & H3 & H & ->).
  apply (run_for_in_Ok h _
           (fun p => [ev (add_source (create_source_name (skydir p))
                                     (peak_src_dict (amplitude m) p) true)])
           (fun visited names => names = names_of create_source_name visited)
        ) with (visited := []) in H3; [| | reflexivity].
  2:{ intros x acc s0 tr0 s0' acc' visited Hv Hb.
      apply run_bind_Ok in Hb as (t1 & u1 & r & t2 & Hb1 & Hb2 & ->).
      apply run_call_Ok in Hb1 as [-> _]. simpl in Hb2.
      injection Hb2 as <- _ <-. split; [reflexivity |].
      unfold names_of in *. now rewrite map_app, Hv. }
  destruct H3 as [-> Hn]. simpl in Hn. subst names.
  apply run_bind_Ok in H as (tr6 & s4 & u & tr7 & H4 & H & ->).
  apply (run_for_in_Ok h _ (fun name => [ev (free_source name false)])
           (fun _ _ => True)) with (visited := []) in H4; [| | exact I].
  2:{ intros x acc s0 tr0 s0' acc' visited _ Hb.
      apply run_call_Ok in Hb as [-> _]. now split. }
  destruct H4 as [-> _].
  apply run_bind_Ok in H as (tr8 & s5 & u' & tr9 & H5 & H & ->).
  apply (run_for_in_Ok h _
           (fun name => [ev (free_source name true); ev fit;
                         ev (free_source name false)])
           (fun _ _ => True)) with (visited := []) in H5; [| | exact I].
  2:{ intros x acc s0 tr0 s0' acc' visited _ Hb.
      apply run_bind_Ok in Hb as (t1 & u1 & r1 & t2 & Hb1 & Hb2 & ->).
      apply run_call_Ok in Hb1 as [-> _].
      apply run_bind_Ok in Hb2 as (t3 & u2 & r2 & t4 & Hb2 & Hb3 & ->).
      apply run_call_Ok in Hb2 as [-> _].
      apply run_call_Ok in Hb3 as [-> _]. now split. }
  destruct H5 as [-> _].
  apply run_bind_Ok in H as (tr10 & s6 & srcs' & tr11 & H6 & H & ->).
  apply (run_for_in_Ok h _ (fun name => [ev (roi_getitem name)])
           (fun visited srcs => length srcs = length visited))
    with (visited := []) in H6; [| | reflexivity].
  2:{ intros x acc s0 tr0 s0' acc' visited Hv Hb.
      apply run_call_then_Ok in Hb as [-> (r & _ & ->)].
      split; [reflexivity |]. rewrite !length_app, Hv. reflexivity. }
  destruct H6 as [-> Hlen]. simpl in H. injection H as <- <- <-.
  exists m, s1, peaks. split; [exact H1 |]. split; [exact H2 |].
  split.
  - unfold round_calls. rewrite !flat_map_singleton, app_nil_r. reflexivity.
  - simpl in Hlen. rewrite Hlen. unfold names_of. apply length_map.
Qed.
End RoundFacts.

(** ** What a round registers *)


Lemma slice_to_length {A : Type} (k : Z) (l : list A) :
  (0 <= k)%Z -> (Z.of_nat (length (slice_to k l)) <= k)%Z.
Proof.
  intros H. unfold slice_to. replace (0 <=? k)%Z with true by lia.
  rewrite length_firstn. lia.
Qed.

Section RegisteredFacts.
Context {Source : Type}.
Variable create_source_name : SkyDir -> string.

Lemma registered_app (tr1 tr2 : list (Event Source)) :
  registered (tr1 ++ tr2) = registered tr1 ++ registered tr2.
Proof. unfold registered. apply flat_map_app. Qed.

Lemma registered_none (tr : list (Event Source)) :
  Forall (fun e => match projT2 e with
                   | add_source _ _ _ => False
                   | _ => True
                   end) tr ->
  registered tr = [].
Proof.
  induction 1 as [| e tr He _ IH]; [reflexivity |].
  unfold registered in *. simpl. rewrite IH.
  destruct e as [R c]. simpl in *. now destruct c.
Qed.

Lemma registered_round_calls (kwargs : Kwargs) (iiter : Z) (m : TsMap)
      (promoted : list Peak) :
  registered (@round_calls Source create_source_name kwargs iiter m promoted)
  = names_of create_source_name promoted.
Proof.
  unfold round_calls.
  change (ev ?c :: ?l) with ([ev c] ++ l).
  rewrite !registered_app.
  rewrite (registered_none [_]) by (repeat constructor).
  rewrite (registered_none (map _ (names_of _ _)))
    by (apply Forall_forall; intros e He; apply in_map_iff in He;
        destruct He as [n [<- _]]; exact I).
  rewrite (registered_none (flat_map _ _)).
  2:{ apply Forall_forall. intros e He. apply in_flat_map in He.
      destruct He as [n [_ [<- | [<- | [<- | []]]]]]; exact I. }
  rewrite (registered_none (map _ (names_of _ _)))
    by (apply Forall_forall; intros e He; apply in_map_iff in He;
        destruct He as [n [<- _]]; exact I).
  rewrite !app_nil_r. simpl.
  unfold registered, names_of.
  induction promoted as [| p ps IH]; simpl; congruence.
Qed.

Lemma round_calls_no_logger (kwargs : Kwargs) (iiter : Z) (m : TsMap)
      (promoted : list Peak) :
  Forall (fun e => is_logger_info e = false)
         (@round_calls Source create_source_name kwargs iiter m promoted).
Proof.
  unfold round_calls. constructor; [reflexivity |].
  repeat (apply Forall_app; split); apply Forall_forall; intros e He.
  - apply in_map_iff in He as [p [<- _]]. reflexivity.
  - apply in_map_iff in He as [n [<- _]]. reflexivity.
  - apply in_flat_map in He as [n [_ [<- | [<- | [<- | []]]]]]; reflexivity.
  - apply in_map_iff in He as [n [<- _]]. reflexivity.
Qed.

Lemma round_calls_rounds_started (kwargs : Kwargs) (iiter : Z) (m : TsMap)
      (promoted : list Peak) :
  rounds_started
    (@round_calls Source create_source_name kwargs iiter m promoted) = 1%nat.
Proof.
  unfold round_calls, rounds_started. simpl. f_equal.
  assert (E : forall l : list (Event Source),
             Forall (fun e => is_tsmap e = false) l -> filter is_tsmap l = []).
  { induction 1 as [| e l He _ IH]; simpl; [reflexivity | now rewrite He]. }
  rewrite E; [reflexivity |].
  repeat (apply Forall_app; split); apply Forall_forall; intros e He.
  - apply in_map_iff in He as [p [<- _]]. reflexivity.
  - apply in_map_iff in He as [n [<- _]]. reflexivity.
  - apply in_flat_map in He as [n [_ [<- | [<- | [<- | []]]]]]; reflexivity.
  - apply in_map_iff in He as [n [<- _]]. reflexivity.
Qed.
End RegisteredFacts.

(** ** Claims about a round *)

(** C6.  In a completed round the engine answered the significance map
    request with a map [m], the detection on [m.sqrt_ts] returned [peaks],
    the promoted peaks are [peaks[:sources_per_iter]], and the calls made
    are, in this order: the significance map request; [add_source] of each
    promoted peak as a free source; [free_source(name, False)] for all the
    names of the round; then for each name, in registration order,
    [free_source(name, True)], one [fit] and [free_source(name, False)];
    and last the catalog reads, one source being returned per promoted
    peak. *)
Theorem round_call_sequence
        {Source St : Type} (h : Engine Source St)
        (create_source_name : SkyDir -> string)
        (config : Config) (kwargs : Kwargs) (iiter : Z)
        (s s' : St) (tr : list (Event Source)) (srcs : list Source) :
  run h (_iterate Source create_source_name config iiter kwargs) s
  = (tr, s', Ok srcs) ->
  exists (m : TsMap) (s1 : St) (peaks : list Peak),
    h TsMap (tsmap (round_label iiter) seed_src_dict false kwargs) s
    = Some (m, s1) /\
    find_peaks (sqrt_ts m)
               (kwargs_get (kw_sqrt_ts_threshold kwargs)
                           (sqrt_ts_threshold config))
               (kwargs_get (kw_min_separation kwargs)
                           (min_separation config)) = Ok peaks /\
    let promoted :=
      slice_to (kwargs_get (kw_sources_per_iter kwargs)
                           (sources_per_iter config)) peaks in
    let names := map (fun p => create_source_name (skydir p)) promoted in
    tr = [ev (tsmap (round_label iiter) seed_src_dict false kwargs)]
         ++ map (fun p => ev (add_source (create_source_name (skydir p))
                                         (peak_src_dict (amplitude m) p)
                                         true)) promoted
         ++ map (fun name => ev (free_source name false)) names
         ++ flat_map (fun name => [ev (free_source name true); ev fit;
                                   ev (free_source name false)]) names
         ++ map (fun name => ev (roi_getitem name)) names /\
    length srcs = length promoted.
Proof.
  intros H. apply iterate_Ok in H as (m & s1 & peaks & Hm & Hp & -> & Hl).
  exists m, s1, peaks.
  split; [exact Hm |]. split; [exact Hp |].
  split; [reflexivity | exact Hl].
Qed.

Lemma round_call_sequence_witness :
  exists (m : TsMap) (s1 : Stub.state) (peaks : list Peak),
    Stub.engine TsMap
                (tsmap (round_label 0) seed_src_dict false Stub.no_kwargs)
                Stub.three_rounds = Some (m, s1) /\
    find_peaks (sqrt_ts m) 5 1 = Ok peaks /\
    let promoted := slice_to 2 peaks in
    let names := map (fun p => Stub.create_source_name (skydir p)) promoted in
    fst (fst (run Stub.engine
                  (Stub.iterate (mkConfig 3 5 1 2 false) 0 Stub.no_kwargs)
                  Stub.three_rounds))
    = [ev (tsmap (round_label 0) seed_src_dict false Stub.no_kwargs)]
      ++ map (fun p => ev (add_source (Stub.create_source_name (skydir p))
                                      (peak_src_dict (amplitude m) p)
                                      true)) promoted
      ++ map (fun name => ev (free_source name false)) names
      ++ flat_map (fun name => [ev (free_source name true); ev fit;
                                ev (free_source name false)]) names
      ++ map (fun name => ev (roi_getitem name)) names /\
    length [peak_src_dict Sample.three (mkPeak 8 0 (mkSkyDir 8 0) 12);
            peak_src_dict Sample.three (mkPeak 4 0 (mkSkyDir 4 0) 9)]
    = length promoted.
Proof.
  apply (round_call_sequence Stub.engine Stub.create_source_name
           (mkConfig 3 5 1 2 false) Stub.no_kwargs 0 Stub.three_rounds
           (snd (fst (run Stub.engine
                          (Stub.iterate (mkConfig 3 5 1 2 false) 0
                                        Stub.no_kwargs)
                          Stub.three_rounds)))
           _
           [peak_src_dict Sample.three (mkPeak 8 0 (mkSkyDir 8 0) 12);
            peak_src_dict Sample.three (mkPeak 4 0 (mkSkyDir 4 0) 9)]).
  vm_compute. reflexivity.
Defined.




(** C9, as stated, fails: the two peaks of [Sample.close_pair] get the same
    name; both are registered under it, none is skipped, no message is
    logged, and the stub engine ends with the second peak's model under
    that name. *)
Lemma duplicate_name_registered_twice :
  let r := run Stub.engine
               (Stub.iterate (mkConfig 3 5 (1 # 2) 2 false) 0 Stub.no_kwargs)
               (Stub.scripted [Sample.close_pair]) in
  registered (fst (fst r)) = ["PS J0+0"; "PS J0+0"]%string /\
  existsb is_logger_info (fst (fst r)) = false /\
  Stub.catalog (snd (fst r))
  = [("PS J0+0"%string,
      peak_src_dict Sample.close_pair
                    (mkPeak 2 0 (mkSkyDir (2 # 4) (0 # 4)) 9))] /\
  exists d1 d2, snd r = Ok [d1; d2].
Proof.
  split; [vm_compute; reflexivity |].
  split; [vm_compute; reflexivity |].
  split; [vm_compute; reflexivity |].
  eexists. eexists. vm_compute. reflexivity.
Qed.

(** C9, amended.  The finder does not look for duplicate names: in a
    completed round every promoted peak is registered with [add_source]
    under its generated name, in order, whether or not the name repeats;
    no peak is skipped, one source is read back per promoted peak, and
    nothing is logged. *)
Theorem every_promoted_peak_registered
        {Source St : Type} (h : Engine Source St)
        (create_source_name : SkyDir -> string)
        (config : Config) (kwargs : Kwargs) (iiter : Z)
        (s s' : St) (tr : list (Event Source)) (srcs : list Source) :
  run h (_iterate Source create_source_name config iiter kwargs) s
  = (tr, s', Ok srcs) ->
  exists (m : TsMap) (s1 : St) (peaks : list Peak),
    h TsMap (tsmap (round_label iiter) seed_src_dict false kwargs) s
    = Some (m, s1) /\
    find_peaks (sqrt_ts m)
               (kwargs_get (kw_sqrt_ts_threshold kwargs)
                           (sqrt_ts_threshold config))
               (kwargs_get (kw_min_separation kwargs)
                           (min_separation config)) = Ok peaks /\
    registered tr
    = map (fun p => create_source_name (skydir p))
          (slice_to (kwargs_get (kw_sources_per_iter kwargs)
                                (sources_per_iter config)) peaks) /\
    length srcs = length (registered tr) /\
    Forall (fun e => is_logger_info e = false) tr.
Proof.
  intros H.
  apply iterate_Ok in H as (m & s1 & peaks & Hm & Hp & -> & Hlen).
  exists m, s1, peaks. split; [exact Hm |]. split; [exact Hp |].
  split; [apply registered_round_calls |].
  split; [| apply round_calls_no_logger].
  rewrite registered_round_calls. unfold names_of.
  now rewrite length_map.
Qed.

Lemma every_promoted_peak_registered_witness :
  exists (m : TsMap) (s1 : Stub.state) (peaks : list Peak),
    Stub.engine TsMap (tsmap (round_label 0) seed_src_dict false
                             Stub.no_kwargs)
                (Stub.scripted [Sample.close_pair])
    = Some (m, s1) /\
    find_peaks (sqrt_ts m) 5 (1 # 2) = Ok peaks /\
    registered (fst (fst (run Stub.engine
                              (Stub.iterate (mkConfig 3 5 (1 # 2) 2 false) 0
                                            Stub.no_kwargs)
                              (Stub.scripted [Sample.close_pair]))))
    = map (fun p => Stub.create_source_name (skydir p)) (slice_to 2 peaks) /\
    length [peak_src_dict Sample.close_pair
                          (mkPeak 2 0 (mkSkyDir (2 # 4) (0 # 4)) 9);
            peak_src_dict Sample.close_pair
                          (mkPeak 2 0 (mkSkyDir (2 # 4) (0 # 4)) 9)]
    = length (registered
                (fst (fst (run Stub.engine
                               (Stub.iterate (mkConfig 3 5 (1 # 2) 2 false) 0
                                             Stub.no_kwargs)
                               (Stub.scripted [Sample.close_pair]))))) /\
    Forall (fun e => is_logger_info e = false)
           (fst (fst (run Stub.engine
                          (Stub.iterate (mkConfig 3 5 (1 # 2) 2 false) 0
                                        Stub.no_kwargs)
                          (Stub.scripted [Sample.close_pair])))).
Proof.
  apply (every_promoted_peak_registered Stub.engine Stub.create_source_name
           (mkConfig 3 5 (1 # 2) 2 false) Stub.no_kwargs 0
           (Stub.scripted [Sample.close_pair])
           (snd (fst (run Stub.engine
                          (Stub.iterate (mkConfig 3 5 (1 # 2) 2 false) 0
                                        Stub.no_kwargs)
                          (Stub.scripted [Sample.close_pair]))))).
  vm_compute. reflexivity.
Defined.

(** ** The round loop *)

Section LoopFacts.
Context {Source St : Type} (h : Engine Source St).
Variable create_source_name : SkyDir -> string.
Variables (config : Config) (kwargs : Kwargs).

(** One turn of the loop. *)
Lemma find_sources_loop_run (i : Z) (todo : list Z) (o : ResultSet Source)
      (s : St) :
  run h (find_sources_loop Source create_source_name config kwargs
                           (i :: todo) o) s
  = match run h (_iterate Source create_source_name config i kwargs) s with
    | (tr1, s1, Err e) => (tr1, s1, Err e)
    | (tr1, s1, Ok srcs) =>
        let log := ev (logger_info (found_message (length srcs) i)) in
        match h unit (logger_info (found_message (length srcs) i)) s1 with
        | None => (tr1 ++ [log], s1, Err EngineError)
        | Some (_, s2) =>
            let o' := mkResultSet (sources o ++ srcs) in
            if (length srcs =? 0)%nat then (tr1 ++ [log], s2, Ok o')
            else
              let '(tr2, s3, r) :=
                run h (find_sources_loop Source create_source_name config
                                         kwargs todo o') s2 in
              (tr1 ++ log :: tr2, s3, r)
        end
    end.
Proof.
  cbn [find_sources_loop]. rewrite run_bind.
  destruct (run h (_iterate Source create_source_name config i kwargs) s)
    as [[tr1 s1] [srcs | e]]; [| reflexivity].
  cbv beta. rewrite run_bind, run_call.
  destruct (h unit (logger_info (found_message (length srcs) i)) s1)
    as [[u s2] |]; [| reflexivity].
  destruct (length srcs =? 0)%nat; simpl; [reflexivity |].
  now destruct (run h (find_sources_loop Source create_source_name config
                                         kwargs todo _) s2) as [[tr2 s3] r].
Qed.

Lemma rounds_started_app (tr1 tr2 : list (Event Source)) :
  rounds_started (tr1 ++ tr2) = (rounds_started tr1 + rounds_started tr2)%nat.
Proof. unfold rounds_started. now rewrite filter_app, length_app. Qed.

Lemma rounds_started_cons (e : Event Source) (tr : list (Event Source)) :
  rounds_started (e :: tr)
  = ((if is_tsmap e then 1 else 0) + rounds_started tr)%nat.
Proof. unfold rounds_started. simpl. now destruct (is_tsmap e). Qed.

Lemma rounds_started_none (tr : list (Event Source)) :
  Forall (fun e => is_tsmap e = false) tr -> rounds_started tr = 0%nat.
Proof.
  unfold rounds_started.
  induction 1 as [| e l He _ IH]; simpl; [reflexivity | now rewrite He].
Qed.

(** Whatever its outcome, a round asks for exactly one significance map. *)
Lemma iterate_rounds_started (i : Z) (s : St) :
  rounds_started
    (fst (fst (run h (_iterate Source create_source_name config i kwargs) s)))
  = 1%nat.
Proof.
  unfold _iterate. rewrite run_bind, run_call.
  destruct (h TsMap _ s) as [[m s1] |]; [| reflexivity].
  match goal with
  | |- context [run h ?p s1] =>
      assert (F : Forall (fun e => is_tsmap e = false)
                         (fst (fst (run h p s1))));
      [| destruct (run h p s1) as [[tr2 s2] r]; simpl in *;
         apply rounds_started_none in F; unfold rounds_started in *; simpl;
         now rewrite F ]
  end.
  apply run_bind_Forall.
  { destruct (find_peaks _ _ _); simpl; constructor. }
  intros peaks s2. apply run_bind_Forall.
  { apply run_for_in_Forall. intros x acc s3.
    apply run_bind_Forall; [now apply run_call_Forall |].
    intros; simpl; constructor. }
  intros names s3. apply run_bind_Forall.
  { apply run_for_in_Forall. intros x acc s4. now apply run_call_Forall. }
  intros u s4. apply run_bind_Forall.
  { apply run_for_in_Forall. intros x acc s5.
    apply run_bind_Forall; [now apply run_call_Forall |].
    intros u1 s6. apply run_bind_Forall; [now apply run_call_Forall |].
    intros u2 s7. now apply run_call_Forall. }
  intros u' s5. apply run_bind_Forall.
  { apply run_for_in_Forall. intros x acc s6.
    apply run_bind_Forall; [now apply run_call_Forall |].
    intros; simpl; constructor. }
  intros; simpl; constructor.
Qed.

(** The loop starts at most one round per index it was given. *)
Lemma find_sources_loop_rounds (todo : list Z) (o : ResultSet Source)
      (s : St) :
  (rounds_started
     (fst (fst (run h (find_sources_loop Source create_source_name config
                                         kwargs todo o) s)))
   <= length todo)%nat.
Proof.
  revert o s. induction todo as [| i todo IH]; intros o s.
  - simpl. unfold rounds_started. simpl. lia.
  - rewrite find_sources_loop_run.
    pose proof (iterate_rounds_started i s) as H1.
    destruct (run h (_iterate Source create_source_name config i kwargs) s)
      as [[tr1 s1] [srcs | e]]; simpl in H1; [| simpl; lia].
    cbv zeta.
    destruct (h unit _ s1) as [[u s2] |].
    + destruct (length srcs =? 0)%nat.
      * simpl fst. rewrite rounds_started_app, H1, rounds_started_cons.
        unfold rounds_started. simpl. lia.
      * specialize (IH (mkResultSet (sources o ++ srcs)) s2).
        destruct (run h (find_sources_loop Source create_source_name config
                                           kwargs todo _) s2)
          as [[tr2 s3] r].
        simpl fst in *.
        rewrite rounds_started_app, H1, rounds_started_cons.
        simpl. lia.
    + simpl fst. rewrite rounds_started_app, H1, rounds_started_cons.
      unfold rounds_started. simpl. lia.
Qed.
End LoopFacts.

Lemma range_pos (n : Z) : (0 < n)%Z -> exists rest, range n = 0%Z :: rest.
Proof.
  intros H. unfold range. destruct (Z.to_nat n) eqn:E; [lia |].
  simpl. now eexists.
Qed.

Lemma range_nonpos (n : Z) : (n <= 0)%Z -> range n = [].
Proof.
  intros H. unfold range. now replace (Z.to_nat n) with 0%nat by lia.
Qed.

(** C4.  [find_sources] starts at most [max_iter] rounds, whatever the
    engine does; a round that produces no source ends the loop at once;
    and with [max_iter = 3], when the first round produces sources and the
    second none, exactly the first round's sources are returned and only
    two rounds are run. *)
Theorem find_sources_round_limit_and_stop
        {Source St : Type} (h : Engine Source St)
        (create_source_name : SkyDir -> string)
        (config : Config) (kwargs : Kwargs) :
  (forall s,
      (rounds_started
         (fst (fst (run h (find_sources Source create_source_name config
                                        kwargs) s)))
       <= Z.to_nat (kwargs_get (kw_max_iter kwargs) (max_iter config)))%nat)
  /\
  (forall i todo o s tr1 s1 s2,
      run h (_iterate Source create_source_name config i kwargs) s
      = (tr1, s1, Ok []) ->
      h unit (logger_info (found_message 0 i)) s1 = Some (tt, s2) ->
      run h (find_sources_loop Source create_source_name config kwargs
                               (i :: todo) o) s
      = (tr1 ++ [ev (logger_info (found_message 0 i))], s2, Ok o))
  /\
  (forall s tr0 s1 srcs0 s1' tr1 s2 s2',
      kwargs_get (kw_max_iter kwargs) (max_iter config) = 3%Z ->
      run h (_iterate Source create_source_name config 0 kwargs) s
      = (tr0, s1, Ok srcs0) ->
      srcs0 <> [] ->
      h unit (logger_info (found_message (length srcs0) 0)) s1
      = Some (tt, s1') ->
      run h (_iterate Source create_source_name config 1 kwargs) s1'
      = (tr1, s2, Ok []) ->
      h unit (logger_info (found_message 0 1)) s2 = Some (tt, s2') ->
      run h (find_sources Source create_source_name config kwargs) s
      = (tr0 ++ ev (logger_info (found_message (length srcs0) 0))
             :: tr1 ++ [ev (logger_info (found_message 0 1))],
         s2', Ok (mkResultSet srcs0))
      /\ rounds_started
           (tr0 ++ ev (logger_info (found_message (length srcs0) 0))
                :: tr1 ++ [ev (logger_info (found_message 0 1))]) = 2%nat).
Proof.
  assert (Hstop : forall i todo o s tr1 s1 s2,
             run h (_iterate Source create_source_name config i kwargs) s
             = (tr1, s1, Ok []) ->
             h unit (logger_info (found_message 0 i)) s1 = Some (tt, s2) ->
             run h (find_sources_loop Source create_source_name config kwargs
                                      (i :: todo) o) s
             = (tr1 ++ [ev (logger_info (found_message 0 i))], s2, Ok o)).
  { intros i todo o s tr1 s1 s2 Hr Hl.
    rewrite find_sources_loop_run, Hr. cbv zeta. simpl length. rewrite Hl.
    simpl. rewrite app_nil_r. now destruct o. }
  split; [| split; [exact Hstop |]].
  - intros s. unfold find_sources.
    eapply Nat.le_trans; [apply find_sources_loop_rounds |].
    rewrite range_length. lia.
  - intros s tr0 s1 srcs0 s1' tr1 s2 s2' Hmax H0 Hne Hl0 H1 Hl1.
    split.
    + unfold find_sources. rewrite Hmax.
      change (range 3) with [0%Z; 1%Z; 2%Z].
      rewrite find_sources_loop_run, H0. cbv zeta. rewrite Hl0.
      destruct srcs0 as [| x xs]; [now destruct Hne |].
      simpl Nat.eqb. cbv iota.
      rewrite (Hstop 1%Z [2%Z] _ s1' tr1 s2 s2' H1 Hl1).
      reflexivity.
    + pose proof (iterate_rounds_started h create_source_name config kwargs
                                         0 s) as R0.
      pose proof (iterate_rounds_started h create_source_name config kwargs
                                         1 s1') as R1.
      rewrite H0 in R0. rewrite H1 in R1. simpl in R0, R1.
      rewrite rounds_started_app, rounds_started_cons, rounds_started_app.
      rewrite R0, R1. reflexivity.
Qed.

Lemma find_sources_round_limit_and_stop_witness :
  snd (run Stub.engine (Stub.finder Stub.config Stub.no_kwargs)
           Stub.three_rounds)
  = Ok (mkResultSet
          [peak_src_dict Sample.three (mkPeak 8 0 (mkSkyDir 8 0) 12)])
  /\ rounds_started
       (fst (fst (run Stub.engine (Stub.finder Stub.config Stub.no_kwargs)
                      Stub.three_rounds))) = 2%nat.
Proof.
  pose (r0 := run Stub.engine (Stub.iterate Stub.config 0 Stub.no_kwargs)
                  Stub.three_rounds).
  pose (r1 := run Stub.engine (Stub.iterate Stub.config 1 Stub.no_kwargs)
                  (snd (fst r0))).
  destruct (proj2 (proj2 (find_sources_round_limit_and_stop
                            Stub.engine Stub.create_source_name
                            Stub.config Stub.no_kwargs))
                  Stub.three_rounds
                  (fst (fst r0)) (snd (fst r0))
                  [peak_src_dict Sample.three (mkPeak 8 0 (mkSkyDir 8 0) 12)]
                  (snd (fst r0))
                  (fst (fst r1)) (snd (fst r1)) (snd (fst r1)))
    as [Hrun Hrounds].
  - reflexivity.
  - vm_compute. reflexivity.
  - discriminate.
  - reflexivity.
  - vm_compute. reflexivity.
  - reflexivity.
  - unfold Stub.finder. rewrite Hrun. split; [reflexivity | exact Hrounds].
Defined.

(** ** Configuration values that are not positive *)

(** With a positive pixel scale, a separation that is not positive leaves
    the footprint empty, and the maximum filter raises. *)
Lemma find_peaks_nonpositive_separation (m : Map) (T s : Q) :
  0 < pixel_scale m -> s <= 0 -> find_peaks m T s = Err ValueError.
Proof.
  intros Hc Hs. unfold find_peaks, local_max.
  destruct (region m s) as [fp | e] eqn:Hfp.
  - assert (Hoffs : footprint_offsets fp = []).
    { apply region_Ok in Hfp as [Hn ->]. unfold footprint_offsets.
      rewrite filter_none; [reflexivity |].
      intros p Hp. apply all_pixels_tabulate in Hp; [| exact Hn | exact Hn].
      apply all_pixels_In in Hp as [Hi Hj].
      rewrite get_tabulate by assumption. cbv zeta.
      unfold Dist_ltb, Dist_scale. simpl.
      assert (H1 : Qle_bool 0 (1 * pixel_scale m) = true)
        by (apply Qle_bool_iff; lra).
      assert (H2 : Qle_bool s 0 = true) by now apply Qle_bool_iff.
      now rewrite H1, H2. }
    unfold maximum_filter. now rewrite Hoffs.
  - unfold region in Hfp.
    destruct (Qeq_bool (pixel_scale m) 0) eqn:E.
    + apply Qeq_bool_iff in E. lra.
    + destruct (_ <? 0)%Z; [| discriminate]. now injection Hfp as <-.
Qed.

(** C8, as stated, fails: with [max_iter = 0] (and a negative
    [min_separation]) [find_sources] does not fail; it returns an empty
    result set without calling the engine. *)
Lemma nonpositive_max_iter_not_rejected :
  run Stub.engine (Stub.finder (mkConfig 0 5 (-1) 1 false) Stub.no_kwargs)
      Stub.three_rounds
  = ([], Stub.three_rounds, Ok (mkResultSet [])).
Proof. reflexivity. Qed.

(** C8, amended.  [find_sources] checks neither value before the loop.
    With [max_iter <= 0] it runs no round and returns an empty result set
    without error.  With [0 < max_iter] its first action is the
    significance-map request of round 0, whatever [min_separation] is;
    a [min_separation <= 0] makes [find_peaks] raise only then, on a map of
    positive pixel scale, and that error ends the run. *)
Theorem no_validation_before_loop
        {Source St : Type} (h : Engine Source St)
        (create_source_name : SkyDir -> string)
        (config : Config) (kwargs : Kwargs) (s : St) :
  let n := kwargs_get (kw_max_iter kwargs) (max_iter config) in
  let sep := kwargs_get (kw_min_separation kwargs) (min_separation config) in
  let request := tsmap (round_label 0) seed_src_dict false kwargs in
  ((n <= 0)%Z ->
   run h (find_sources Source create_source_name config kwargs) s
   = ([], s, Ok (mkResultSet [])))
  /\
  ((0 < n)%Z ->
   exists k, find_sources Source create_source_name config kwargs
             = Vis TsMap request k)
  /\
  ((0 < n)%Z -> sep <= 0 ->
   forall m s1,
     h TsMap request s = Some (m, s1) -> 0 < pixel_scale (sqrt_ts m) ->
     run h (find_sources Source create_source_name config kwargs) s
     = ([ev request], s1, Err ValueError)).
Proof.
  intros n sep request. split; [| split].
  - intros Hn. unfold find_sources. fold n. now rewrite range_nonpos.
  - intros Hn. unfold find_sources. fold n.
    destruct (range_pos n Hn) as [rest ->]. simpl. now eexists.
  - intros Hn Hsep m s1 Hm Hc. unfold find_sources. fold n.
    destruct (range_pos n Hn) as [rest ->].
    rewrite find_sources_loop_run.
    assert (E : run h (_iterate Source create_source_name config 0 kwargs) s
                = ([ev request], s1, Err ValueError)).
    { unfold _iterate. rewrite run_bind, run_call.
      change (tsmap ("sourcefind_" ++ fmt_02i 0) seed_src_dict false kwargs)
        with (@tsmap Source (round_label 0) seed_src_dict false kwargs).
      fold request. rewrite Hm. cbv beta zeta. rewrite run_bind.
      fold sep. rewrite (find_peaks_nonpositive_separation _ _ _ Hc Hsep).
      reflexivity. }
    now rewrite E.
Qed.

Lemma no_validation_before_loop_witness :
  run Stub.engine (Stub.finder (mkConfig 0 5 1 1 false) Stub.no_kwargs)
      Stub.three_rounds
  = ([], Stub.three_rounds, Ok (mkResultSet []))
  /\ run Stub.engine (Stub.finder (mkConfig 3 5 (-1) 1 false) Stub.no_kwargs)
         Stub.three_rounds
     = ([ev (tsmap (round_label 0) seed_src_dict false Stub.no_kwargs)],
        Stub.scripted [Sample.empty_sky; Sample.three], Err ValueError).
Proof.
  split.
  - apply (proj1 (no_validation_before_loop
                    Stub.engine Stub.create_source_name
                    (mkConfig 0 5 1 1 false) Stub.no_kwargs
                    Stub.three_rounds)).
    simpl. lia.
  - apply (fun Hn Hsep =>
             proj2 (proj2 (no_validation_before_loop
                             Stub.engine Stub.create_source_name
                             (mkConfig 3 5 (-1) 1 false) Stub.no_kwargs
                             Stub.three_rounds))
                   Hn Hsep (Stub.tsmap_of Sample.three)
                   (Stub.scripted [Sample.empty_sky; Sample.three])).
    + simpl. lia.
    + simpl. discriminate.
    + reflexivity.
    + reflexivity.
Defined.

(** * Further properties of [find_peaks] *)

Lemma minimum_Z_In (l : list Z) (x : Z) : In (minimum_Z x l) (x :: l).
Proof.
  unfold minimum_Z. revert x. induction l as [| y l IH]; intros x; simpl.
  - now left.
  - destruct (IH (Z.min x y)) as [H | H]; [| now right; right].
    destruct (Z.min_spec x y) as [[_ E] | [_ E]].
    + left. rewrite <- H. now symmetry.
    + right; left. rewrite <- H. now symmetry.
Qed.

(** The start of a bounding box is made of a row and of a column of the
    feature. *)
Lemma origin_coordinates (c : list pixel) :
  c <> [] ->
  (exists p, In p c /\ fst (origin c) = fst p) /\
  (exists p, In p c /\ snd (origin c) = snd p).
Proof.
  destruct c as [| p ps]; [now intros [] | intros _].
  unfold origin. simpl. split.
  - destruct (minimum_Z_In (map fst ps) (fst p)) as [H | H].
    + exists p. split; [now left | now symmetry].
    + apply in_map_iff in H as (q & Hq & Hin). exists q.
      split; [now right | now symmetry].
  - destruct (minimum_Z_In (map snd ps) (snd p)) as [H | H].
    + exists p. split; [now left | now symmetry].
    + apply in_map_iff in H as (q & Hq & Hin). exists q.
      split; [now right | now symmetry].
Qed.

(** The pixels of a feature are set pixels of the thresholded array. *)
Lemma label_set (lm : list (list bool)) (f : list pixel) (q : pixel) :
  In f (label lm) -> In q f -> get false lm (fst q) (snd q) = true.
Proof.
  unfold label, label_with. intros Hf Hq.
  exact (label_scan_set _ _ _ _ _ _ q Hf Hq).
Qed.

Lemma label_nonempty (lm : list (list bool)) (f : list pixel) :
  In f (label lm) -> f <> [].
Proof.
  unfold label, label_with. intros Hf.
  apply label_scan_seed in Hf as (p & more & -> & _). discriminate.
Qed.

(** X1.  Every returned peak lies inside the grid:
    [0 <= iy < nrows] and [0 <= ix < ncols]. *)
Theorem find_peaks_inside_grid
        (m : Map) (T s : Q) (peaks : list Peak) (p : Peak) :
  find_peaks m T s = Ok peaks -> In p peaks ->
  (0 <= iy p < nrows (counts m))%Z /\ (0 <= ix p < ncols (counts m))%Z.
Proof.
  intros H Hp.
  destruct (find_peaks_feature _ _ _ _ _ H Hp) as (lm & c & Hlm & Hc & E).
  destruct (origin_coordinates c (label_nonempty _ _ Hc))
    as [(q1 & Hq1 & E1) (q2 & Hq2 & E2)].
  unfold peak_pixel in E. rewrite <- E in E1, E2. simpl in E1, E2.
  pose proof (label_set _ _ _ Hc Hq1) as S1.
  pose proof (label_set _ _ _ Hc Hq2) as S2.
  destruct (local_max_true _ _ _ _ _ _ Hlm S1) as (Hi & _).
  destruct (local_max_true _ _ _ _ _ _ Hlm S2) as (_ & Hj & _).
  rewrite E1, E2. now split.
Qed.

Lemma find_peaks_inside_grid_witness :
  (0 <= 0 < nrows (counts Sample.corner))%Z
  /\ (0 <= 0 < ncols (counts Sample.corner))%Z.
Proof.
  apply (find_peaks_inside_grid Sample.corner 7 (3 # 2)
           [mkPeak 0 0 (mkSkyDir 0 0) 5] (mkPeak 0 0 (mkSkyDir 0 0) 5)).
  - vm_compute; reflexivity.
  - now left.
Defined.

(** X2.  A returned peak whose pixel is itself a set pixel of the
    thresholded local-maximum array (as for every single-pixel feature)
    has an amplitude that reaches the threshold. *)
Theorem find_peaks_member_amplitude
        (m : Map) (T s : Q) (peaks : list Peak) (p : Peak)
        (lm : list (list bool)) :
  find_peaks m T s = Ok peaks -> In p peaks ->
  local_max m T s = Ok lm ->
  (get false lm (iy p) (ix p) = true \/ single_pixel_maximum m T s p) ->
  T <= amp p.
Proof.
  intros H Hp Hlm Hset.
  assert (Hget : get false lm (iy p) (ix p) = true).
  { destruct Hset as [Hset | Hset]; [exact Hset |].
    now apply (single_pixel_maximum_set m T s). }
  rewrite (find_peaks_amp _ _ _ _ _ H Hp).
  now destruct (local_max_true _ _ _ _ _ _ Hlm Hget) as (_ & _ & HT & _).
Qed.

Lemma find_peaks_member_amplitude_witness : 5 <= 9.
Proof.
  apply (find_peaks_member_amplitude Sample.three 5 1
           [mkPeak 8 0 (mkSkyDir 8 0) 12; mkPeak 4 0 (mkSkyDir 4 0) 9;
            mkPeak 0 0 (mkSkyDir 0 0) 6]
           (mkPeak 4 0 (mkSkyDir 4 0) 9)
           [[true; false; false; false; true; false; false; false; true]]).
  - vm_compute; reflexivity.
  - right; now left.
  - vm_compute; reflexivity.
  - left. reflexivity.
Defined.

Lemma reflect_range (n i : Z) : (0 < n)%Z -> (0 <= reflect n i < n)%Z.
Proof.
  intros H. unfold reflect. destruct (n <=? 1)%Z eqn:E; [lia |].
  pose proof (Z.mod_pos_bound i (2 * n)) as B.
  destruct (i mod (2 * n) <? n)%Z eqn:E'; lia.
Qed.

Lemma maximum_le (l : list Q) (x b : Q) :
  (forall y, In y (x :: l) -> y <= b) -> maximum x l <= b.
Proof.
  revert x. induction l as [| z l IH]; intros x H; simpl.
  - apply H. now left.
  - apply IH. intros y [<- | Hy].
    + apply Q.max_lub; apply H; [now left | right; now left].
    + apply H. right; now right.
Qed.

(** The filtered value at a pixel is bounded by any bound of the input
    values under the footprint, taken through the reflection. *)
Lemma maximum_filter_le (data : list (list Q)) (fp : list (list bool))
      (flt : list (list Q)) (i j : Z) (b : Q) :
  maximum_filter data fp = Ok flt ->
  (0 <= i < nrows data)%Z -> (0 <= j < ncols data)%Z ->
  (forall o, In o (footprint_offsets fp) ->
             get 0 data (reflect (nrows data) (i + fst o))
                        (reflect (ncols data) (j + snd o)) <= b) ->
  get 0 flt i j <= b.
Proof.
  unfold maximum_filter. intros Hflt Hi Hj Hb.
  destruct (footprint_offsets fp) as [| o offs] eqn:E; [discriminate |].
  injection Hflt as <-. rewrite get_tabulate by assumption.
  change (window data (o :: offs) i j)
    with (get 0 data (reflect (nrows data) (i + fst o))
                     (reflect (ncols data) (j + snd o))
          :: window data offs i j).
  apply maximum_le. intros y Hy.
  change (In y (window data (o :: offs) i j)) in Hy.
  unfold window in Hy. apply in_map_iff in Hy as (o' & <- & Ho').
  now apply Hb.
Qed.

Lemma label_scan_nil (structure : Z -> Z -> bool) (input : pixel -> bool)
      (pixels todo seen : list pixel) :
  (forall p, In p todo -> input p = false) ->
  label_scan structure input pixels todo seen = [].
Proof.
  revert seen. induction todo as [| p todo IH]; intros seen H; simpl.
  - reflexivity.
  - rewrite (H p) by now left. simpl. apply IH. intros q Hq. apply H.
    now right.
Qed.

(** A pixel holding the largest value of a non-empty list of pixels. *)
Lemma argmax_exists (f : pixel -> Q) (l : list pixel) :
  l <> [] -> exists p, In p l /\ forall q, In q l -> f q <= f p.
Proof.
  induction l as [| x l IH]; [now intros [] | intros _].
  destruct l as [| y l].
  - exists x. split; [now left |]. intros q [<- | []]. apply Qle_refl.
  - destruct IH as (p & Hp & Hmax); [discriminate |].
    destruct (Qlt_le_dec (f p) (f x)) as [Hlt | Hle].
    + exists x. split; [now left |]. intros q [<- | Hq]; [apply Qle_refl |].
      apply Qle_trans with (f p); [now apply Hmax | now apply Qlt_le_weak].
    + exists p. split; [now right |]. intros q [<- | Hq]; [exact Hle |].
      now apply Hmax.
Qed.

(** A pixel holding the largest value of the grid is a local maximum. *)
Lemma global_maximum_is_local (m : Map) (s : Q) (fp : list (list bool))
      (flt : list (list Q)) (i j : Z) :
  0 < pixel_scale m -> 0 < s ->
  region m s = Ok fp -> maximum_filter (counts m) fp = Ok flt ->
  (0 <= i < nrows (counts m))%Z -> (0 <= j < ncols (counts m))%Z ->
  (forall a b, (0 <= a < nrows (counts m))%Z -> (0 <= b < ncols (counts m))%Z ->
               get 0 (counts m) a b <= get 0 (counts m) i j) ->
  get 0 flt i j == get 0 (counts m) i j.
Proof.
  intros Hc Hs Hfp Hflt Hi Hj Hmax. apply Qle_antisym.
  - apply (maximum_filter_le _ _ _ _ _ _ Hflt Hi Hj). intros o _.
    apply Hmax; apply reflect_range; lia.
  - assert (H0 : In (0%Z, 0%Z) (footprint_offsets fp)).
    { apply (footprint_offsets_disc m s); try assumption.
      assert (E : inject_Z (0 * 0 + 0 * 0) == 0) by reflexivity.
      rewrite E. assert (0 < s * s) by (apply Qmult_lt_0_compat; assumption).
      lra. }
    pose proof (maximum_filter_ge _ _ _ i j 0%Z 0%Z Hflt H0 Hi Hj) as G.
    rewrite !Z.add_0_r in G. now apply G.
Qed.

(** Nothing is returned when no pixel reaches the threshold. *)
Lemma find_peaks_all_below (m : Map) (T s : Q) (peaks : list Peak) :
  find_peaks m T s = Ok peaks ->
  (forall i j, (0 <= i < nrows (counts m))%Z -> (0 <= j < ncols (counts m))%Z ->
               get 0 (counts m) i j < T) ->
  peaks = [].
Proof.
  intros H Hlow.
  destruct (find_peaks_Ok _ _ _ _ H) as (lm & Hlm & _).
  pose proof (find_peaks_length _ _ _ _ _ H Hlm) as Hlen.
  destruct (local_max_Ok _ _ _ _ Hlm) as (fp & flt & Hfp & Hflt & Elm).
  assert (Hnil : label lm = []).
  { unfold label, label_with. apply label_scan_nil. intros p Hp.
    rewrite Elm in Hp |- *.
    apply all_pixels_tabulate in Hp; [| apply nrows_nonneg
                                       | apply ncols_nonneg].
    apply all_pixels_In in Hp as [Hi Hj].
    rewrite get_tabulate by assumption.
    apply andb_false_iff. right. rewrite negb_involutive.
    apply Qle_bool_false. now apply Hlow. }
  rewrite Hnil in Hlen. now destruct peaks.
Qed.

(** X3.  On a grid of finite values, for a positive pixel scale and a
    positive separation, [find_peaks] returns the empty list exactly when
    no pixel of the grid reaches the threshold. *)
Theorem find_peaks_empty_iff
        (m : Map) (T s : Q) (peaks : list Peak) :
  0 < pixel_scale m -> 0 < s ->
  find_peaks m T s = Ok peaks ->
  (peaks = [] <->
   forall i j, (0 <= i < nrows (counts m))%Z -> (0 <= j < ncols (counts m))%Z ->
               get 0 (counts m) i j < T).
Proof.
  intros Hc Hs H.
  destruct (find_peaks_Ok _ _ _ _ H) as (lm & Hlm & _).
  pose proof (find_peaks_length _ _ _ _ _ H Hlm) as Hlen.
  destruct (local_max_Ok _ _ _ _ Hlm) as (fp & flt & Hfp & Hflt & Elm).
  split.
  - (* a pixel reaching the threshold would give a feature *)
    intros -> i j Hi Hj.
    destruct (Qlt_le_dec (get 0 (counts m) i j) T) as [Hlt | Hge];
      [exact Hlt | exfalso].
    destruct (argmax_exists
                (fun p => get 0 (counts m) (fst p) (snd p))
                (all_pixels (nrows (counts m)) (ncols (counts m))))
      as (p & Hp & Hmax).
    { intros E. assert (Hin : In (i, j) (all_pixels (nrows (counts m))
                                                     (ncols (counts m))))
        by now apply all_pixels_In.
      rewrite E in Hin. destruct Hin. }
    apply all_pixels_In in Hp as [Hpi Hpj].
    assert (Hset : get false lm (fst p) (snd p) = true).
    { rewrite (local_max_spec _ _ _ _ _ _ _ _ Hlm Hfp Hflt Hpi Hpj).
      apply andb_true_iff. split.
      - apply Qeq_bool_iff.
        apply (global_maximum_is_local m s fp); try assumption.
        intros a b Ha Hb. apply (Hmax (a, b)). now apply all_pixels_In.
      - apply Qle_bool_iff.
        apply Qle_trans with (get 0 (counts m) i j); [exact Hge |].
        apply (Hmax (i, j)). now apply all_pixels_In. }
    destruct (label_covers _ _ _ _ _ _ Hlm Hset) as (f & Hf & _).
    destruct (label lm); [destruct Hf | discriminate].
  - (* no pixel reaches the threshold: nothing is set *)
    now apply (find_peaks_all_below m T s).
Qed.

Lemma find_peaks_empty_iff_witness :
  @nil Peak = [] <->
  forall i j, (0 <= i < nrows (counts Sample.empty_sky))%Z ->
              (0 <= j < ncols (counts Sample.empty_sky))%Z ->
              get 0 (counts Sample.empty_sky) i j < 5.
Proof.
  apply (find_peaks_empty_iff Sample.empty_sky 5 1 []).
  - reflexivity.
  - reflexivity.
  - vm_compute; reflexivity.
Defined.

(** The footprint holds no other offset than those of the open disc. *)
Lemma footprint_offsets_inv (m : Map) (s : Q) (fp : list (list bool))
      (dy dx : Z) :
  0 < pixel_scale m -> 0 < s ->
  region m s = Ok fp ->
  In (dy, dx) (footprint_offsets fp) ->
  inject_Z (dy * dy + dx * dx) * (pixel_scale m * pixel_scale m) < s * s.
Proof.
  intros Hc Hs Hfp Hin.
  apply region_Ok in Hfp as [Hn ->].
  set (r := Qtrunc (s / pixel_scale m)).
  assert (Hr : footprint_size m s = (r * 2 + 3)%Z) by reflexivity.
  unfold footprint_offsets in Hin.
  apply in_map_iff in Hin as ([a b] & E & Hab).
  apply filter_In in Hab as [Hab Hget]. cbn [fst snd] in *.
  apply all_pixels_tabulate in Hab; [| exact Hn | exact Hn].
  apply all_pixels_In in Hab as [Ha Hb]. cbn [fst snd] in *.
  rewrite get_tabulate in Hget by assumption. cbv zeta in Hget.
  apply (proj1 (Dist_ltb_pos _ _ _ Hc Hs)) in Hget.
  rewrite nrows_tabulate, ncols_tabulate in E by lia.
  rewrite Hr in *.
  replace (Z.max 0 (r * 2 + 3)) with (r * 2 + 3)%Z in E by lia.
  replace ((r * 2 + 3) / 2)%Z with (r + 1)%Z in E
    by (apply Z.div_unique with 1%Z; lia).
  injection E as <- <-.
  replace (2 * a - (r * 2 + 3 - 1))%Z with (2 * (a - (r + 1)))%Z in Hget
    by lia.
  replace (2 * b - (r * 2 + 3 - 1))%Z with (2 * (b - (r + 1)))%Z in Hget
    by lia.
  assert (Eq : (2 * (a - (r + 1)) * (2 * (a - (r + 1)))
                + 2 * (b - (r + 1)) * (2 * (b - (r + 1)))) # 4
               == inject_Z ((a - (r + 1)) * (a - (r + 1))
                            + (b - (r + 1)) * (b - (r + 1)))).
  { unfold Qeq. cbn [Qnum Qden inject_Z]. ring. }
  now rewrite Eq in Hget.
Qed.

(** X4.  On a grid of finite values a larger minimum separation never
    adds a local maximum: a pixel set in the thresholded array for the
    separation [s2] is set for every smaller positive separation [s1]. *)
Theorem local_max_separation_antitone
        (m : Map) (T s1 s2 : Q) (lm1 lm2 : list (list bool)) (i j : Z) :
  0 < pixel_scale m -> 0 < s1 -> s1 <= s2 ->
  local_max m T s1 = Ok lm1 -> local_max m T s2 = Ok lm2 ->
  get false lm2 i j = true -> get false lm1 i j = true.
Proof.
  intros Hc Hs1 Hs12 H1 H2 Hset.
  assert (Hs2 : 0 < s2) by lra.
  destruct (local_max_true _ _ _ _ _ _ H2 Hset)
    as (Hi & Hj & HT & fp2 & flt2 & Hfp2 & Hflt2 & E2).
  destruct (local_max_Ok _ _ _ _ H1) as (fp1 & flt1 & Hfp1 & Hflt1 & _).
  rewrite (local_max_spec _ _ _ _ _ _ _ _ H1 Hfp1 Hflt1 Hi Hj).
  apply andb_true_iff. split; [| now apply Qle_bool_iff].
  apply Qeq_bool_iff, Qle_antisym.
  - (* the smaller footprint lies inside the larger one *)
    rewrite <- E2.
    apply (maximum_filter_le _ _ _ _ _ _ Hflt1 Hi Hj). intros [dy dx] Ho.
    cbn [fst snd].
    assert (Ho2 : In (dy, dx) (footprint_offsets fp2)).
    { apply (footprint_offsets_disc m s2); try assumption.
      apply Qlt_le_trans with (s1 * s1).
      - now apply (footprint_offsets_inv m s1 fp1).
      - apply Qsquare_le; lra. }
    unfold maximum_filter in Hflt2.
    destruct (footprint_offsets fp2) as [| o offs] eqn:Eo; [discriminate |].
    injection Hflt2 as <-. rewrite get_tabulate by assumption.
    apply maximum_ge.
    change (In (get 0 (counts m) (reflect (nrows (counts m)) (i + dy))
                    (reflect (ncols (counts m)) (j + dx)))
               (window (counts m) (o :: offs) i j)).
    unfold window. apply in_map_iff. now exists (dy, dx).
  - assert (H0 : In (0%Z, 0%Z) (footprint_offsets fp1)).
    { apply (footprint_offsets_disc m s1); try assumption.
      assert (E : inject_Z (0 * 0 + 0 * 0) == 0) by reflexivity.
      rewrite E.
      assert (0 < s1 * s1) by (apply Qmult_lt_0_compat; assumption).
      lra. }
    pose proof (maximum_filter_ge _ _ _ i j 0%Z 0%Z Hflt1 H0 Hi Hj) as G.
    rewrite !Z.add_0_r in G. now apply G.
Qed.

Lemma local_max_separation_antitone_witness :
  get false [[true; false; false; false; true; false; false; false; true]]
      0 4 = true.
Proof.
  apply (local_max_separation_antitone Sample.three 5 1 3
           [[true; false; false; false; true; false; false; false; true]]
           [[true; false; false; false; true; false; false; false; true]]
           0 4).
  - reflexivity.
  - reflexivity.
  - discriminate.
  - vm_compute; reflexivity.
  - vm_compute; reflexivity.
  - reflexivity.
Defined.

(** X5.  Raising the threshold never adds a set pixel, whatever the
    separation: a pixel set in the thresholded array for [T2] is set for
    every lower threshold [T1]. *)
Theorem local_max_threshold_antitone
        (m : Map) (T1 T2 s : Q) (lm1 lm2 : list (list bool)) (i j : Z) :
  T1 <= T2 ->
  local_max m T1 s = Ok lm1 -> local_max m T2 s = Ok lm2 ->
  get false lm2 i j = true -> get false lm1 i j = true.
Proof.
  intros HT H1 H2 Hset.
  destruct (local_max_true _ _ _ _ _ _ H2 Hset)
    as (Hi & Hj & HT2 & fp & flt & Hfp & Hflt & E).
  rewrite (local_max_spec _ _ _ _ _ _ _ _ H1 Hfp Hflt Hi Hj).
  apply andb_true_iff. split.
  - now apply Qeq_bool_iff.
  - apply Qle_bool_iff. lra.
Qed.

Lemma local_max_threshold_antitone_witness :
  get false [[true; true; true]] 0 2 = true.
Proof.
  apply (local_max_threshold_antitone Sample.saddle 5 8 (1 # 2)
           [[true; true; true]] [[true; false; true]] 0 2).
  - discriminate.
  - vm_compute; reflexivity.
  - vm_compute; reflexivity.
  - reflexivity.
Defined.

Lemma label_scan_length_filter (structure : Z -> Z -> bool)
      (input : pixel -> bool) (pixels todo seen : list pixel) :
  (length (label_scan structure input pixels todo seen)
   <= length (filter input todo))%nat.
Proof.
  revert seen. induction todo as [| p todo IH]; intros seen; simpl.
  - lia.
  - destruct (input p); simpl.
    + destruct (mem p seen); simpl.
      * specialize (IH seen). lia.
      * specialize (IH (flood structure input pixels (length pixels) [p]
                        ++ seen)). lia.
    + apply IH.
Qed.

(** X6.  [find_peaks] returns one peak per feature, hence never more peaks
    than there are set pixels in the thresholded local-maximum array. *)
Theorem find_peaks_count
        (m : Map) (T s : Q) (peaks : list Peak) (lm : list (list bool)) :
  find_peaks m T s = Ok peaks -> local_max m T s = Ok lm ->
  length peaks = length (label lm) /\ (length peaks <= count_set lm)%nat.
Proof.
  intros H Hlm. pose proof (find_peaks_length _ _ _ _ _ H Hlm) as E.
  split; [exact E |]. rewrite E. unfold label, label_with, count_set.
  apply label_scan_length_filter.
Qed.

Lemma find_peaks_count_witness :
  length [mkPeak 0 0 (mkSkyDir 0 0) 5]
  = length (label [[false; true]; [true; true]])
  /\ (length [mkPeak 0 0 (mkSkyDir 0 0) 5]
      <= count_set [[false; true]; [true; true]])%nat.
Proof.
  apply (find_peaks_count Sample.corner 7 (3 # 2)).
  - vm_compute; reflexivity.
  - vm_compute; reflexivity.
Defined.

(** X7.  On a map of positive pixel scale, [find_peaks] returns a list
    exactly when the separation is positive; otherwise the empty footprint
    makes the maximum filter raise [ValueError]. *)
Theorem find_peaks_succeeds_iff (m : Map) (T s : Q) :
  0 < pixel_scale m ->
  ((exists peaks, find_peaks m T s = Ok peaks) <-> 0 < s)
  /\ (s <= 0 -> find_peaks m T s = Err ValueError).
Proof.
  intros Hc. split; [split |].
  - intros [peaks H].
    destruct (Qlt_le_dec 0 s) as [Hs | Hs]; [exact Hs |].
    rewrite (find_peaks_nonpositive_separation m T s Hc Hs) in H.
    discriminate.
  - now apply find_peaks_total.
  - now apply find_peaks_nonpositive_separation.
Qed.

Lemma find_peaks_succeeds_iff_witness :
  ((exists peaks, find_peaks Sample.single 5 1 = Ok peaks) <-> 0 < 1)
  /\ (1 <= 0 -> find_peaks Sample.single 5 1 = Err ValueError).
Proof.
  apply (find_peaks_succeeds_iff Sample.single 5 1). reflexivity.
Defined.

Lemma minimum_Z_le_init (l : list Z) (x : Z) : (minimum_Z x l <= x)%Z.
Proof.
  unfold minimum_Z. revert x. induction l as [| z l IH]; intros x; simpl.
  - lia.
  - specialize (IH (Z.min x z)). lia.
Qed.

Lemma minimum_Z_le (l : list Z) (x y : Z) :
  In y (x :: l) -> (minimum_Z x l <= y)%Z.
Proof.
  revert x. induction l as [| z l IH]; intros x H.
  - destruct H as [-> | []]. unfold minimum_Z. simpl. lia.
  - change (minimum_Z x (z :: l)) with (minimum_Z (Z.min x z) l).
    destruct H as [-> | [-> | H]].
    + pose proof (minimum_Z_le_init l (Z.min y z)). lia.
    + pose proof (minimum_Z_le_init l (Z.min x y)). lia.
    + apply IH. now right.
Qed.

(** X8.  No thresholded local maximum is lost: every set pixel of the
    array belongs to a feature, and the peak returned for that feature sits
    at the start of its bounding box, on a row and a column not beyond the
    pixel's. *)
Theorem find_peaks_covers_maxima
        (m : Map) (T s : Q) (peaks : list Peak) (lm : list (list bool))
        (i j : Z) :
  find_peaks m T s = Ok peaks -> local_max m T s = Ok lm ->
  get false lm i j = true ->
  exists p f,
    In p peaks /\ In f (label lm) /\ In (i, j) f /\
    peak_pixel p = origin f /\ (iy p <= i)%Z /\ (ix p <= j)%Z.
Proof.
  intros H Hlm Hset.
  destruct (label_covers _ _ _ _ _ _ Hlm Hset) as (f & Hf & Hin).
  exists (peak_of_slice m (bounding_box f)), f.
  split.
  - apply find_peaks_Ok in H as (lm' & Hlm' & ->).
    rewrite Hlm in Hlm'. injection Hlm' as <-.
    apply sorted_desc_In, in_map. unfold find_objects. now apply in_map.
  - split; [exact Hf |]. split; [exact Hin |]. split; [reflexivity |].
    destruct f as [| q qs]; [destruct Hin |].
    unfold peak_of_slice. simpl. split.
    + apply minimum_Z_le. change (In (fst (i, j)) (map fst (q :: qs))).
      now apply in_map.
    + apply minimum_Z_le. change (In (snd (i, j)) (map snd (q :: qs))).
      now apply in_map.
Qed.

Lemma find_peaks_covers_maxima_witness :
  exists p f,
    In p [mkPeak 0 0 (mkSkyDir 0 0) 5] /\
    In f (label [[false; true]; [true; true]]) /\ In (1, 1)%Z f /\
    peak_pixel p = origin f /\ (iy p <= 1)%Z /\ (ix p <= 1)%Z.
Proof.
  apply (find_peaks_covers_maxima Sample.corner 7 (3 # 2)).
  - vm_compute; reflexivity.
  - vm_compute; reflexivity.
  - reflexivity.
Defined.

(** * Further properties of the source finder *)

Lemma slice_to_length_eq {A : Type} (k : Z) (l : list A) :
  Z.of_nat (length (slice_to k l))
  = if (0 <=? k)%Z then Z.min k (Z.of_nat (length l))
    else Z.max 0 (Z.of_nat (length l) + k).
Proof.
  unfold slice_to. destruct (0 <=? k)%Z eqn:E; rewrite length_firstn; lia.
Qed.

(** X9.  A completed round promotes, registers and reads back exactly
    [len(peaks[:sources_per_iter])] sources: the smaller of
    [sources_per_iter] and the number of peaks when [sources_per_iter] is
    not negative, and all but the last [-sources_per_iter] peaks
    otherwise. *)
Theorem round_source_count
        {Source St : Type} (h : Engine Source St)
        (create_source_name : SkyDir -> string)
        (config : Config) (kwargs : Kwargs) (iiter : Z)
        (s s' : St) (tr : list (Event Source)) (srcs : list Source) :
  run h (_iterate Source create_source_name config iiter kwargs) s
  = (tr, s', Ok srcs) ->
  let k := kwargs_get (kw_sources_per_iter kwargs) (sources_per_iter config) in
  exists (m : TsMap) (s1 : St) (peaks : list Peak),
    h TsMap (tsmap (round_label iiter) seed_src_dict false kwargs) s
    = Some (m, s1) /\
    find_peaks (sqrt_ts m)
               (kwargs_get (kw_sqrt_ts_threshold kwargs)
                           (sqrt_ts_threshold config))
               (kwargs_get (kw_min_separation kwargs)
                           (min_separation config)) = Ok peaks /\
    length (registered tr) = length srcs /\
    Z.of_nat (length srcs)
    = if (0 <=? k)%Z then Z.min k (Z.of_nat (length peaks))
      else Z.max 0 (Z.of_nat (length peaks) + k).
Proof.
  intros H k.
  apply iterate_Ok in H as (m & s1 & peaks & Hm & Hp & -> & Hlen).
  exists m, s1, peaks. split; [exact Hm |]. split; [exact Hp |].
  rewrite registered_round_calls. unfold names_of. rewrite length_map.
  split; [now symmetry |]. rewrite Hlen. apply slice_to_length_eq.
Qed.

Lemma round_source_count_witness :
  exists (m : TsMap) (s1 : Stub.state) (peaks : list Peak),
    Stub.engine TsMap (tsmap (round_label 0) seed_src_dict false
                             Stub.no_kwargs) Stub.three_rounds
    = Some (m, s1) /\
    find_peaks (sqrt_ts m) 5 1 = Ok peaks /\
    length (registered
              (fst (fst (run Stub.engine
                             (Stub.iterate (mkConfig 3 5 1 2 false) 0
                                           Stub.no_kwargs)
                             Stub.three_rounds))))
    = length [peak_src_dict Sample.three (mkPeak 8 0 (mkSkyDir 8 0) 12);
              peak_src_dict Sample.three (mkPeak 4 0 (mkSkyDir 4 0) 9)] /\
    Z.of_nat
      (length [peak_src_dict Sample.three (mkPeak 8 0 (mkSkyDir 8 0) 12);
               peak_src_dict Sample.three (mkPeak 4 0 (mkSkyDir 4 0) 9)])
    = if (0 <=? 2)%Z then Z.min 2 (Z.of_nat (length peaks))
      else Z.max 0 (Z.of_nat (length peaks) + 2).
Proof.
  apply (round_source_count Stub.engine Stub.create_source_name
           (mkConfig 3 5 1 2 false) Stub.no_kwargs 0 Stub.three_rounds
           (snd (fst (run Stub.engine
                          (Stub.iterate (mkConfig 3 5 1 2 false) 0
                                        Stub.no_kwargs)
                          Stub.three_rounds)))).
  vm_compute. reflexivity.
Defined.

Section SearchFacts.
Context {Source St : Type} (h : Engine Source St).
Variable create_source_name : SkyDir -> string.
Variables (config : Config) (kwargs : Kwargs).

(** The sources gathered by the loop: at most [sources_per_iter] more per
    index still to run. *)
Lemma find_sources_loop_bound (todo : list Z) :
  (0 <= kwargs_get (kw_sources_per_iter kwargs) (sources_per_iter config))%Z ->
  forall (o0 o : ResultSet Source) (s s' : St) (tr : list (Event Source)),
    run h (find_sources_loop Source create_source_name config kwargs todo o0)
        s = (tr, s', Ok o) ->
    (length (sources o)
     <= length (sources o0)
        + length todo
          * Z.to_nat (kwargs_get (kw_sources_per_iter kwargs)
                                 (sources_per_iter config)))%nat.
Proof.
  intros Hk. induction todo as [| i todo IH]; intros o0 o s s' tr H.
  - simpl in H. injection H as _ _ <-. lia.
  - rewrite find_sources_loop_run in H.
    destruct (run h (_iterate Source create_source_name config i kwargs) s)
      as [[tr1 s1] [srcs | e]] eqn:E; [| discriminate].
    assert (Hsrcs : (length srcs
                     <= Z.to_nat (kwargs_get (kw_sources_per_iter kwargs)
                                             (sources_per_iter config)))%nat).
    { apply iterate_Ok in E as (m & s2 & peaks & _ & _ & _ & ->).
      pose proof (slice_to_length
                    (kwargs_get (kw_sources_per_iter kwargs)
                                (sources_per_iter config)) peaks Hk).
      lia. }
    cbv zeta in H.
    destruct (h unit _ s1) as [[u s2] |]; [| discriminate].
    destruct (length srcs =? 0)%nat.
    + injection H as _ _ <-. simpl. rewrite length_app. lia.
    + destruct (run h (find_sources_loop Source create_source_name config
                                         kwargs todo _) s2)
        as [[tr2 s3] r] eqn:E2.
      injection H as _ _ ->. apply IH in E2. simpl in E2.
      rewrite length_app in E2. simpl. lia.
Qed.
End SearchFacts.

(** X10.  When [find_sources] completes and [sources_per_iter] is not
    negative, it returns at most [max_iter * sources_per_iter] sources
    (none when [max_iter <= 0]). *)
Theorem find_sources_result_bound
        {Source St : Type} (h : Engine Source St)
        (create_source_name : SkyDir -> string)
        (config : Config) (kwargs : Kwargs)
        (s s' : St) (tr : list (Event Source)) (o : ResultSet Source) :
  run h (find_sources Source create_source_name config kwargs) s
  = (tr, s', Ok o) ->
  (0 <= kwargs_get (kw_sources_per_iter kwargs) (sources_per_iter config))%Z ->
  (Z.of_nat (length (sources o))
   <= Z.max 0 (kwargs_get (kw_max_iter kwargs) (max_iter config))
      * kwargs_get (kw_sources_per_iter kwargs) (sources_per_iter config))%Z.
Proof.
  unfold find_sources. intros H Hk.
  apply (find_sources_loop_bound h create_source_name config kwargs _ Hk)
    in H.
  rewrite range_length in H. simpl in H. nia.
Qed.

Lemma find_sources_result_bound_witness :
  (Z.of_nat (length (sources
                       (mkResultSet
                          [peak_src_dict Sample.three
                                         (mkPeak 8 0 (mkSkyDir 8 0) 12)])))
   <= Z.max 0 3 * 1)%Z.
Proof.
  apply (find_sources_result_bound Stub.engine Stub.create_source_name
           Stub.config Stub.no_kwargs Stub.three_rounds
           (snd (fst (run Stub.engine
                          (Stub.finder Stub.config Stub.no_kwargs)
                          Stub.three_rounds)))
           (fst (fst (run Stub.engine
                          (Stub.finder Stub.config Stub.no_kwargs)
                          Stub.three_rounds)))).
  - vm_compute. reflexivity.
  - simpl. lia.
Defined.

(** X11.  [find_sources] handles no error: when a round ends with an error
    (an engine call raising, or [find_peaks] raising), the search ends with
    the same error right after the round's last call; nothing is logged,
    no later round is started, and the sources gathered so far are not
    returned. *)
Theorem round_error_ends_search
        {Source St : Type} (h : Engine Source St)
        (create_source_name : SkyDir -> string)
        (config : Config) (kwargs : Kwargs)
        (i : Z) (todo : list Z) (o : ResultSet Source)
        (s s1 : St) (tr1 : list (Event Source)) (e : Error) :
  run h (_iterate Source create_source_name config i kwargs) s
  = (tr1, s1, Err e) ->
  run h (find_sources_loop Source create_source_name config kwargs
                           (i :: todo) o) s
  = (tr1, s1, Err e)
  /\ (h TsMap (tsmap (round_label i) seed_src_dict false kwargs) s = None ->
      tr1 = [ev (tsmap (round_label i) seed_src_dict false kwargs)]
      /\ s1 = s /\ e = EngineError).
Proof.
  intros H. split.
  - now rewrite find_sources_loop_run, H.
  - intros Hm. unfold _iterate in H. rewrite run_bind, run_call in H.
    change (tsmap ("sourcefind_" ++ fmt_02i i) seed_src_dict false kwargs)
      with (@tsmap Source (round_label i) seed_src_dict false kwargs) in H.
    rewrite Hm in H. now injection H as <- <- <-.
Qed.

Lemma round_error_ends_search_witness :
  run Stub.engine
      (find_sources_loop SrcDict Stub.create_source_name Stub.config
                         Stub.no_kwargs [0%Z; 1%Z; 2%Z] (mkResultSet []))
      (Stub.scripted [])
  = ([ev (tsmap (round_label 0) seed_src_dict false Stub.no_kwargs)],
     Stub.scripted [], Err EngineError).
Proof.
  apply (round_error_ends_search Stub.engine Stub.create_source_name
           Stub.config Stub.no_kwargs 0 [1%Z; 2%Z] (mkResultSet [])
           (Stub.scripted []) (Stub.scripted [])).
  reflexivity.
Defined.

(** X12.  A round whose significance map has no pixel reaching the
    threshold ends the search: the engine is asked for the map, nothing is
    registered, fitted or read, "Found 0 sources" is logged, and the
    sources gathered so far are returned. *)
Theorem round_without_peaks_ends_search
        {Source St : Type} (h : Engine Source St)
        (create_source_name : SkyDir -> string)
        (config : Config) (kwargs : Kwargs)
        (i : Z) (todo : list Z) (o : ResultSet Source)
        (s s1 s2 : St) (m : TsMap) :
  let T := kwargs_get (kw_sqrt_ts_threshold kwargs)
                      (sqrt_ts_threshold config) in
  let sep := kwargs_get (kw_min_separation kwargs) (min_separation config) in
  h TsMap (tsmap (round_label i) seed_src_dict false kwargs) s
  = Some (m, s1) ->
  0 < pixel_scale (sqrt_ts m) -> 0 < sep ->
  (forall a b, (0 <= a < nrows (counts (sqrt_ts m)))%Z ->
               (0 <= b < ncols (counts (sqrt_ts m)))%Z ->
               get 0 (counts (sqrt_ts m)) a b < T) ->
  h unit (logger_info (found_message 0 i)) s1 = Some (tt, s2) ->
  run h (find_sources_loop Source create_source_name config kwargs
                           (i :: todo) o) s
  = ([ev (tsmap (round_label i) seed_src_dict false kwargs);
      ev (logger_info (found_message 0 i))], s2, Ok o).
Proof.
  intros T sep Hm Hc Hs Hlow Hlog.
  destruct (find_peaks_total (sqrt_ts m) T sep Hc Hs) as [peaks Hp].
  pose proof (find_peaks_all_below _ _ _ _ Hp Hlow) as ->.
  assert (E : run h (_iterate Source create_source_name config i kwargs) s
              = ([ev (tsmap (round_label i) seed_src_dict false kwargs)],
                 s1, Ok [])).
  { unfold _iterate. rewrite run_bind, run_call.
    change (tsmap ("sourcefind_" ++ fmt_02i i) seed_src_dict false kwargs)
      with (@tsmap Source (round_label i) seed_src_dict false kwargs).
    rewrite Hm. cbv beta zeta. rewrite run_bind. fold T sep. rewrite Hp.
    assert (Es : forall k, slice_to k (@nil Peak) = [])
      by (intros k; unfold slice_to; destruct (0 <=? k)%Z;
          now rewrite firstn_nil).
    simpl lift. cbv beta iota. simpl run at 1. cbv beta iota zeta.
    rewrite Es. reflexivity. }
  rewrite find_sources_loop_run, E. cbv zeta. simpl length. rewrite Hlog.
  simpl. rewrite app_nil_r. now destruct o.
Qed.

Lemma round_without_peaks_ends_search_witness :
  run Stub.engine
      (find_sources_loop SrcDict Stub.create_source_name Stub.config
                         Stub.no_kwargs [0%Z; 1%Z; 2%Z] (mkResultSet []))
      (Stub.scripted [Sample.empty_sky; Sample.three])
  = ([ev (tsmap (round_label 0) seed_src_dict false Stub.no_kwargs);
      ev (logger_info (found_message 0 0))],
     Stub.scripted [Sample.three], Ok (mkResultSet [])).
Proof.
  apply (round_without_peaks_ends_search
           Stub.engine Stub.create_source_name Stub.config Stub.no_kwargs
           0 [1%Z; 2%Z] (mkResultSet [])
           (Stub.scripted [Sample.empty_sky; Sample.three])
           (Stub.scripted [Sample.three]) (Stub.scripted [Sample.three])
           (Stub.tsmap_of Sample.empty_sky)).
  - reflexivity.
  - reflexivity.
  - reflexivity.
  - intros a b Ha Hb.
    change (nrows (counts (sqrt_ts (Stub.tsmap_of Sample.empty_sky))))
      with 1%Z in Ha.
    change (ncols (counts (sqrt_ts (Stub.tsmap_of Sample.empty_sky))))
      with 9%Z in Hb.
    assert (Ea : a = 0%Z) by lia. subst a.
    assert (Eb : (b = 0 \/ b = 1 \/ b = 2 \/ b = 3 \/ b = 4 \/ b = 5
                  \/ b = 6 \/ b = 7 \/ b = 8)%Z) by lia.
    destruct Eb as [-> | [-> | [-> | [-> | [-> | [-> | [-> | [-> | ->]]]]]]]];
      reflexivity.
  - reflexivity.
Defined.

(** ** The free flags along a round *)

Section FreeFacts.
Context {Source : Type}.

Lemma free_after_app (tr1 tr2 : list (Event Source)) (free : string -> bool) :
  free_after (tr1 ++ tr2) free = free_after tr2 (free_after tr1 free).
Proof. unfold free_after. apply fold_left_app. Qed.

Lemma mem_name_cons (x n : string) (l : list string) :
  existsb (String.eqb x) (n :: l) = String.eqb x n || existsb (String.eqb x) l.
Proof. reflexivity. Qed.

(** Calls that set the flag of each name of [l] to [b], possibly after
    having set it otherwise, leave it at [b] and touch no other name. *)
Lemma free_after_flat_map (calls : string -> list (Event Source)) (b : bool)
      (l : list string) :
  (forall n free x,
      free_after (calls n) free x = if String.eqb x n then b else free x) ->
  forall free x,
    free_after (flat_map calls l) free x
    = if existsb (String.eqb x) l then b else free x.
Proof.
  intros Hc. induction l as [| n l IH]; intros free x; simpl.
  - reflexivity.
  - rewrite free_after_app, IH, Hc.
    destruct (String.eqb x n); simpl; [| reflexivity].
    now destruct (existsb (String.eqb x) l).
Qed.

Lemma free_after_neutral (tr : list (Event Source)) (free : string -> bool) :
  Forall (fun e => forall f, track_free f e = f) tr ->
  free_after tr free = free.
Proof.
  intros H. revert free. induction H as [| e tr He _ IH]; intros free.
  - reflexivity.
  - unfold free_after in *. simpl. rewrite He. apply IH.
Qed.

Lemma fits_isolated_app (names : list string)
      (tr1 tr2 : list (Event Source)) (free : string -> bool) :
  fits_isolated names tr1 free ->
  fits_isolated names tr2 (free_after tr1 free) ->
  fits_isolated names (tr1 ++ tr2) free.
Proof.
  revert free. induction tr1 as [| e tr1 IH]; intros free H1 H2.
  - exact H2.
  - destruct H1 as [He H1]. split; [exact He |]. apply IH; assumption.
Qed.

Lemma fits_isolated_no_fit (names : list string) (tr : list (Event Source))
      (free : string -> bool) :
  Forall (fun e => is_fit e = false) tr -> fits_isolated names tr free.
Proof.
  intros H. revert free. induction H as [| e tr He _ IH]; intros free.
  - exact I.
  - split; [| apply IH]. rewrite He. discriminate.
Qed.

(** The refits of the names [l], started with every name of [names]
    frozen: each fit sees its own source free and no other. *)
Lemma fits_isolated_refits (names l : list string) (free : string -> bool) :
  incl l names ->
  (forall x, In x names -> free x = false) ->
  fits_isolated names
    (flat_map (fun name => [@ev Source unit (free_source name true); ev fit;
                            ev (free_source name false)]) l) free.
Proof.
  revert free. induction l as [| n l IH]; intros free Hl Hf.
  - exact I.
  - assert (Hn : In n names) by (apply Hl; now left).
    simpl. split; [discriminate |]. split.
    + intros _. exists n. split; [exact Hn |]. intros x Hx.
      unfold track_free, set_free. simpl.
      destruct (String.eqb_spec x n) as [-> | Hne]; [tauto |].
      rewrite (Hf x Hx). split; [discriminate | tauto].
    + split; [discriminate |]. apply IH.
      * intros y Hy. apply Hl. now right.
      * intros x Hx. unfold track_free, set_free. simpl.
        destruct (String.eqb x n); [reflexivity |]. now apply Hf.
Qed.

Lemma existsb_eqb_In (x : string) (l : list string) :
  existsb (String.eqb x) l = true <-> In x l.
Proof.
  rewrite existsb_exists. split.
  - intros (y & Hy & E). apply String.eqb_eq in E. now subst.
  - intros H. exists x. split; [exact H | apply String.eqb_refl].
Qed.
End FreeFacts.

Section RoundFlags.
Context {Source : Type}.
Variable create_source_name : SkyDir -> string.
Variables (kwargs : Kwargs) (iiter : Z) (m : TsMap) (promoted : list Peak).

Lemma round_calls_parts :
  @round_calls Source create_source_name kwargs iiter m promoted
  = ([ev (tsmap (round_label iiter) seed_src_dict false kwargs)]
     ++ round_adds create_source_name m promoted
     ++ round_freezes (names_of create_source_name promoted))
    ++ round_refits (names_of create_source_name promoted)
    ++ round_reads (names_of create_source_name promoted).
Proof.
  unfold round_calls, round_adds, round_freezes, round_refits, round_reads.
  now rewrite <- !app_assoc.
Qed.

Lemma free_after_adds (free : string -> bool) (x : string) :
  free_after (@round_adds Source create_source_name m promoted) free x
  = if existsb (String.eqb x) (names_of create_source_name promoted)
    then true else free x.
Proof.
  unfold round_adds, names_of. revert free.
  induction promoted as [| p ps IH]; intros free; simpl.
  - reflexivity.
  - unfold free_after in *. simpl. rewrite IH.
    unfold track_free, set_free. simpl.
    destruct (String.eqb x (create_source_name (skydir p))); simpl;
      [| reflexivity].
    now destruct (existsb _ _).
Qed.

Lemma free_after_freezes (free : string -> bool) (x : string) :
  free_after (@round_freezes Source (names_of create_source_name promoted))
             free x
  = if existsb (String.eqb x) (names_of create_source_name promoted)
    then false else free x.
Proof.
  unfold round_freezes. rewrite <- flat_map_singleton.
  apply (free_after_flat_map _ false). intros n f y.
  unfold free_after, track_free, set_free. reflexivity.
Qed.

Lemma free_after_refits (free : string -> bool) (x : string) :
  free_after (@round_refits Source (names_of create_source_name promoted))
             free x
  = if existsb (String.eqb x) (names_of create_source_name promoted)
    then false else free x.
Proof.
  unfold round_refits. apply (free_after_flat_map _ false). intros n f y.
  unfold free_after, track_free, set_free. simpl.
  now destruct (String.eqb y n).
Qed.

Lemma free_after_reads (free : string -> bool) :
  free_after (@round_reads Source (names_of create_source_name promoted))
             free = free.
Proof.
  apply free_after_neutral. unfold round_reads. apply Forall_forall.
  intros e He. apply in_map_iff in He as (n & <- & _). reflexivity.
Qed.

(** The flags when the refits start: every name of the round is frozen. *)
Lemma free_before_refits (free : string -> bool) (x : string) :
  free_after ([ev (tsmap (round_label iiter) seed_src_dict false kwargs)]
              ++ @round_adds Source create_source_name m promoted
              ++ round_freezes (names_of create_source_name promoted))
             free x
  = if existsb (String.eqb x) (names_of create_source_name promoted)
    then false else free x.
Proof.
  rewrite !free_after_app, free_after_freezes, free_after_adds.
  now destruct (existsb (String.eqb x)
                        (names_of create_source_name promoted)).
Qed.

Lemma free_after_round_calls (free : string -> bool) (x : string) :
  free_after (@round_calls Source create_source_name kwargs iiter m promoted)
             free x
  = if existsb (String.eqb x) (names_of create_source_name promoted)
    then false else free x.
Proof.
  rewrite round_calls_parts, !free_after_app, free_after_reads,
    free_after_refits.
  rewrite <- !free_after_app, free_before_refits.
  now destruct (existsb (String.eqb x)
                        (names_of create_source_name promoted)).
Qed.

Lemma fits_isolated_round_calls (free : string -> bool) :
  fits_isolated (names_of create_source_name promoted)
    (@round_calls Source create_source_name kwargs iiter m promoted) free.
Proof.
  rewrite round_calls_parts. apply fits_isolated_app.
  - apply fits_isolated_no_fit.
    repeat (apply Forall_app; split); [repeat constructor | |];
      apply Forall_forall; intros e He;
      apply in_map_iff in He as (y & <- & _); reflexivity.
  - apply fits_isolated_app.
    + apply fits_isolated_refits; [apply incl_refl |].
      intros x Hx. rewrite free_before_refits.
      apply existsb_eqb_In in Hx. now rewrite Hx.
    + apply fits_isolated_no_fit. apply Forall_forall. intros e He.
      apply in_map_iff in He as (y & <- & _). reflexivity.
Qed.

Lemma fit_count_round_calls :
  length (filter is_fit
            (@round_calls Source create_source_name kwargs iiter m promoted))
  = length (names_of create_source_name promoted).
Proof.
  rewrite round_calls_parts, !filter_app, !length_app.
  assert (N : forall l : list (Event Source),
             Forall (fun e => is_fit e = false) l -> filter is_fit l = []).
  { induction 1 as [| e l He _ IH]; simpl; [reflexivity | now rewrite He]. }
  rewrite (N (round_adds _ _ _)), (N (round_freezes _)), (N (round_reads _));
    try (apply Forall_forall; intros e He;
         apply in_map_iff in He as (y & <- & _); reflexivity).
  simpl. rewrite Nat.add_0_r. unfold round_refits.
  induction (names_of create_source_name promoted) as [| n l IH]; simpl;
    [reflexivity | now rewrite IH].
Qed.

Lemma event_name_round_calls (e : Event Source) (n : string) :
  In e (@round_calls Source create_source_name kwargs iiter m promoted) ->
  event_name e = Some n -> In n (names_of create_source_name promoted).
Proof.
  rewrite round_calls_parts.
  unfold round_adds, round_freezes, round_refits, round_reads.
  intros He Hn. unfold event_name in Hn.
  repeat (apply in_app_or in He as [He | He]).
  - destruct He as [<- | []]. discriminate.
  - apply in_map_iff in He as (p & <- & Hp). simpl in Hn.
    injection Hn as <-. unfold names_of. apply in_map_iff. now exists p.
  - apply in_map_iff in He as (y & <- & Hy). simpl in Hn.
    now injection Hn as <-.
  - apply in_flat_map in He as (y & Hy & [<- | [<- | [<- | []]]]);
      simpl in Hn; try discriminate; now injection Hn as <-.
  - apply in_map_iff in He as (y & <- & Hy). simpl in Hn.
    now injection Hn as <-.
Qed.
End RoundFlags.

(** X13.  A completed round leaves every source it registered frozen and
    the free flag of every other source as it found it. *)
Theorem round_leaves_sources_frozen
        {Source St : Type} (h : Engine Source St)
        (create_source_name : SkyDir -> string)
        (config : Config) (kwargs : Kwargs) (iiter : Z)
        (s s' : St) (tr : list (Event Source)) (srcs : list Source)
        (free : string -> bool) (x : string) :
  run h (_iterate Source create_source_name config iiter kwargs) s
  = (tr, s', Ok srcs) ->
  free_after tr free x
  = if existsb (String.eqb x) (registered tr) then false else free x.
Proof.
  intros H. apply iterate_Ok in H as (m & s1 & peaks & _ & _ & -> & _).
  rewrite registered_round_calls. apply free_after_round_calls.
Qed.

Lemma round_leaves_sources_frozen_witness :
  free_after (fst (fst (run Stub.engine
                            (Stub.iterate (mkConfig 3 5 1 2 false) 0
                                          Stub.no_kwargs)
                            Stub.three_rounds)))
             (fun _ => true) "PS J4+0"
  = if existsb (String.eqb "PS J4+0")
               (registered
                  (fst (fst (run Stub.engine
                                 (Stub.iterate (mkConfig 3 5 1 2 false) 0
                                               Stub.no_kwargs)
                                 Stub.three_rounds))))
    then false else true.
Proof.
  apply (round_leaves_sources_frozen Stub.engine Stub.create_source_name
           (mkConfig 3 5 1 2 false) Stub.no_kwargs 0 Stub.three_rounds
           (snd (fst (run Stub.engine
                          (Stub.iterate (mkConfig 3 5 1 2 false) 0
                                        Stub.no_kwargs)
                          Stub.three_rounds)))
           _
           [peak_src_dict Sample.three (mkPeak 8 0 (mkSkyDir 8 0) 12);
            peak_src_dict Sample.three (mkPeak 4 0 (mkSkyDir 4 0) 9)]
           (fun _ => true) "PS J4+0").
  vm_compute. reflexivity.
Defined.

(** X14.  In a completed round every [fit] is made with exactly one of the
    round's sources free, whatever the flags were before the round; and
    there is one [fit] per source read back. *)
Theorem round_fits_one_source_at_a_time
        {Source St : Type} (h : Engine Source St)
        (create_source_name : SkyDir -> string)
        (config : Config) (kwargs : Kwargs) (iiter : Z)
        (s s' : St) (tr : list (Event Source)) (srcs : list Source)
        (free : string -> bool) :
  run h (_iterate Source create_source_name config iiter kwargs) s
  = (tr, s', Ok srcs) ->
  fits_isolated (registered tr) tr free
  /\ length (filter is_fit tr) = length srcs.
Proof.
  intros H. apply iterate_Ok in H as (m & s1 & peaks & _ & _ & -> & Hlen).
  rewrite registered_round_calls. split.
  - apply fits_isolated_round_calls.
  - rewrite fit_count_round_calls, Hlen. unfold names_of. apply length_map.
Qed.

Lemma round_fits_one_source_at_a_time_witness :
  fits_isolated
    (registered (fst (fst (run Stub.engine
                               (Stub.iterate (mkConfig 3 5 1 2 false) 0
                                             Stub.no_kwargs)
                               Stub.three_rounds))))
    (fst (fst (run Stub.engine
                   (Stub.iterate (mkConfig 3 5 1 2 false) 0 Stub.no_kwargs)
                   Stub.three_rounds)))
    (fun _ => true)
  /\ length (filter is_fit
               (fst (fst (run Stub.engine
                              (Stub.iterate (mkConfig 3 5 1 2 false) 0
                                            Stub.no_kwargs)
                              Stub.three_rounds))))
     = length [peak_src_dict Sample.three (mkPeak 8 0 (mkSkyDir 8 0) 12);
               peak_src_dict Sample.three (mkPeak 4 0 (mkSkyDir 4 0) 9)].
Proof.
  apply (round_fits_one_source_at_a_time
           Stub.engine Stub.create_source_name
           (mkConfig 3 5 1 2 false) Stub.no_kwargs 0 Stub.three_rounds
           (snd (fst (run Stub.engine
                          (Stub.iterate (mkConfig 3 5 1 2 false) 0
                                        Stub.no_kwargs)
                          Stub.three_rounds)))).
  vm_compute. reflexivity.
Defined.

(** X15.  A completed round acts on no other source than those it
    registered: every [add_source], [free_source] and catalog read of the
    round names a source registered in that round. *)
Theorem round_touches_own_sources_only
        {Source St : Type} (h : Engine Source St)
        (create_source_name : SkyDir -> string)
        (config : Config) (kwargs : Kwargs) (iiter : Z)
        (s s' : St) (tr : list (Event Source)) (srcs : list Source)
        (e : Event Source) (n : string) :
  run h (_iterate Source create_source_name config iiter kwargs) s
  = (tr, s', Ok srcs) ->
  In e tr -> event_name e = Some n -> In n (registered tr).
Proof.
  intros H He Hn.
  apply iterate_Ok in H as (m & s1 & peaks & _ & _ & -> & _).
  rewrite registered_round_calls.
  exact (event_name_round_calls _ _ _ _ _ e n He Hn).
Qed.

Lemma round_touches_own_sources_only_witness :
  In "PS J8+0"%string
     (registered (fst (fst (run Stub.engine
                                (Stub.iterate Stub.config 0 Stub.no_kwargs)
                                Stub.three_rounds)))).
Proof.
  apply (round_touches_own_sources_only
           Stub.engine Stub.create_source_name Stub.config Stub.no_kwargs 0
           Stub.three_rounds
           (snd (fst (run Stub.engine
                          (Stub.iterate Stub.config 0 Stub.no_kwargs)
                          Stub.three_rounds)))
           _
           [peak_src_dict Sample.three (mkPeak 8 0 (mkSkyDir 8 0) 12)]
           (ev (roi_getitem "PS J8+0"))).
  - vm_compute. reflexivity.
  - vm_compute. do 6 right. now left.
  - reflexivity.
Defined.

(** * The boundary of the grid *)

(** Reflection brings an index back into the array without moving it away
    from an index of the array. *)
Lemma reflect_contracts (n i d : Z) :
  (0 <= i < n)%Z -> (Z.abs (reflect n (i + d) - i) <= Z.abs d)%Z.
Proof.
  intros Hi. unfold reflect. destruct (n <=? 1)%Z eqn:En; [lia |].
  apply Z.leb_gt in En.
  pose proof (Z.div_mod (i + d) (2 * n)) as Hdm.
  pose proof (Z.mod_pos_bound (i + d) (2 * n)) as Hb.
  set (q := ((i + d) / (2 * n))%Z) in *.
  set (r := ((i + d) mod (2 * n))%Z) in *.
  assert (Hq : (q <= -2 \/ q = -1 \/ q = 0 \/ 1 <= q)%Z) by lia.
  destruct (r <? n)%Z eqn:Er;
    [apply Z.ltb_lt in Er | apply Z.ltb_ge in Er];
    destruct Hq as [Hq | [Hq | [Hq | Hq]]]; try nia.
Qed.

Lemma reflect_dist2 (nr nc i j dy dx : Z) :
  (0 <= i < nr)%Z -> (0 <= j < nc)%Z ->
  (dist2 (i, j) (reflect nr (i + dy), reflect nc (j + dx))
   <= dy * dy + dx * dx)%Z.
Proof.
  intros Hi Hj. unfold dist2. cbn [fst snd].
  pose proof (reflect_contracts nr i dy Hi) as Hy.
  pose proof (reflect_contracts nc j dx Hj) as Hx.
  nia.
Qed.

(** X16.  On a grid of finite values, for a positive pixel scale and a
    positive separation, a pixel of the grid is set in the thresholded
    local-maximum array exactly when its value reaches the threshold and no
    pixel of the grid under the footprint [region] centred on it has a
    larger value: the values the maximum filter reads by reflection beyond
    the edges of the grid never decide. *)
Theorem local_max_characterisation
        (m : Map) (T s : Q) (lm fp : list (list bool)) (i j : Z) :
  0 < pixel_scale m -> 0 < s ->
  local_max m T s = Ok lm -> region m s = Ok fp ->
  (0 <= i < nrows (counts m))%Z -> (0 <= j < ncols (counts m))%Z ->
  (get false lm i j = true <->
   T <= get 0 (counts m) i j /\
   forall dy dx,
     In (dy, dx) (footprint_offsets fp) ->
     (0 <= i + dy < nrows (counts m))%Z ->
     (0 <= j + dx < ncols (counts m))%Z ->
     get 0 (counts m) (i + dy) (j + dx) <= get 0 (counts m) i j).
Proof.
  intros Hc Hs Hlm Hfp Hi Hj.
  destruct (local_max_Ok _ _ _ _ Hlm) as (fp' & flt & Hfp' & Hflt & _).
  rewrite Hfp in Hfp'. injection Hfp' as <-.
  rewrite (local_max_spec _ _ _ _ _ _ _ _ Hlm Hfp Hflt Hi Hj).
  rewrite andb_true_iff, Qeq_bool_iff, Qle_bool_iff.
  assert (Hcentre : get 0 (counts m) i j <= get 0 flt i j).
  { assert (H0 : In (0%Z, 0%Z) (footprint_offsets fp)).
    { apply (footprint_offsets_disc m s); try assumption.
      assert (E : inject_Z (0 * 0 + 0 * 0) == 0) by reflexivity.
      rewrite E. assert (0 < s * s) by (apply Qmult_lt_0_compat; assumption).
      lra. }
    pose proof (maximum_filter_ge _ _ _ i j 0%Z 0%Z Hflt H0 Hi Hj) as G.
    rewrite !Z.add_0_r in G. now apply G. }
  split.
  - intros [E HT]. split; [exact HT |]. intros dy dx Ho Hy Hx.
    rewrite <- E.
    exact (maximum_filter_ge _ _ _ i j _ _ Hflt Ho Hi Hj Hy Hx).
  - intros [HT Hdom]. split; [| exact HT].
    apply Qle_antisym; [| exact Hcentre].
    apply (maximum_filter_le _ _ _ _ _ _ Hflt Hi Hj). intros [dy dx] Ho.
    cbn [fst snd].
    set (a := reflect (nrows (counts m)) (i + dy)).
    set (b := reflect (ncols (counts m)) (j + dx)).
    assert (Ha : (0 <= a < nrows (counts m))%Z)
      by (apply reflect_range; lia).
    assert (Hb : (0 <= b < ncols (counts m))%Z)
      by (apply reflect_range; lia).
    assert (Hab : In ((a - i)%Z, (b - j)%Z) (footprint_offsets fp)).
    { apply (footprint_offsets_disc m s); try assumption.
      apply Qle_lt_trans
        with (inject_Z (dy * dy + dx * dx)
              * (pixel_scale m * pixel_scale m)).
      - apply Qmult_le_compat_r.
        + rewrite <- Zle_Qle.
          exact (reflect_dist2 _ _ i j dy dx Hi Hj).
        + apply Qmult_le_0_compat; lra.
      - now apply (footprint_offsets_inv m s fp). }
    replace a with (i + (a - i))%Z at 1 by lia.
    replace b with (j + (b - j))%Z at 1 by lia.
    apply Hdom; [exact Hab | lia | lia].
Qed.

Lemma local_max_characterisation_witness :
  get false [[true; false; false; false; true; false; false; false; true]]
      0 4 = true <->
  5 <= get 0 (counts Sample.three) 0 4 /\
  forall dy dx,
    In (dy, dx) (footprint_offsets [[false; false; false; false; false];
                                    [false; true; true; true; false];
                                    [false; true; true; true; false];
                                    [false; true; true; true; false];
                                    [false; false; false; false; false]]) ->
    (0 <= 0 + dy < nrows (counts Sample.three))%Z ->
    (0 <= 4 + dx < ncols (counts Sample.three))%Z ->
    get 0 (counts Sample.three) (0 + dy) (4 + dx)
    <= get 0 (counts Sample.three) 0 4.
Proof.
  apply (local_max_characterisation Sample.three 5 (3 # 2)).
  - reflexivity.
  - reflexivity.
  - vm_compute; reflexivity.
  - vm_compute; reflexivity.
  - vm_compute; split; [discriminate | reflexivity].
  - vm_compute; split; [discriminate | reflexivity].
Defined.

(** * The whole search *)

Section SearchTrace.
Context {Source St : Type} (h : Engine Source St).
Variable create_source_name : SkyDir -> string.
Variables (config : Config) (kwargs : Kwargs).

Lemma find_sources_loop_registered (todo : list Z) :
  forall (o0 o : ResultSet Source) (s s' : St) (tr : list (Event Source)),
    run h (find_sources_loop Source create_source_name config kwargs todo o0)
        s = (tr, s', Ok o) ->
    length (sources o) = (length (sources o0) + length (registered tr))%nat.
Proof.
  induction todo as [| i todo IH]; intros o0 o s s' tr H.
  - simpl in H. injection H as <- _ <-. simpl. lia.
  - rewrite find_sources_loop_run in H.
    destruct (run h (_iterate Source create_source_name config i kwargs) s)
      as [[tr1 s1] [srcs | e]] eqn:E; [| discriminate].
    assert (Hreg : length (registered tr1) = length srcs).
    { apply iterate_Ok in E as (m & s2 & peaks & _ & _ & -> & ->).
      rewrite registered_round_calls. unfold names_of. apply length_map. }
    cbv zeta in H.
    destruct (h unit _ s1) as [[u s2] |]; [| discriminate].
    destruct (length srcs =? 0)%nat.
    + injection H as <- _ <-. simpl.
      rewrite registered_app, !length_app, Hreg.
      unfold registered. simpl. lia.
    + destruct (run h (find_sources_loop Source create_source_name config
                                         kwargs todo _) s2)
        as [[tr2 s3] r] eqn:E2.
      injection H as <- _ ->. apply IH in E2. simpl in E2.
      rewrite length_app in E2.
      rewrite registered_app, length_app, Hreg.
      change (registered (ev (logger_info (found_message (length srcs) i))
                          :: tr2))
        with (registered tr2).
      lia.
Qed.

(** Whatever its outcome, a round asks for one significance map, under the
    label of its index, with the seed model and the caller's keywords. *)
Lemma iterate_tsmaps (i : Z) (s : St) :
  filter is_tsmap
    (fst (fst (run h (_iterate Source create_source_name config i kwargs) s)))
  = [ev (tsmap (round_label i) seed_src_dict false kwargs)].
Proof.
  assert (N : forall l : list (Event Source),
             Forall (fun e => is_tsmap e = false) l -> filter is_tsmap l = []).
  { induction 1 as [| e l He _ IH]; simpl; [reflexivity | now rewrite He]. }
  unfold _iterate. rewrite run_bind, run_call.
  destruct (h TsMap _ s) as [[m s1] |]; [| reflexivity].
  match goal with
  | |- context [run h ?p s1] =>
      assert (F : Forall (fun e => is_tsmap e = false)
                         (fst (fst (run h p s1))));
      [| destruct (run h p s1) as [[tr2 s2] r]; simpl in *;
         now rewrite (N tr2 F) ]
  end.
  apply run_bind_Forall.
  { destruct (find_peaks _ _ _); simpl; constructor. }
  intros peaks s2. apply run_bind_Forall.
  { apply run_for_in_Forall. intros x acc s3.
    apply run_bind_Forall; [now apply run_call_Forall |].
    intros; simpl; constructor. }
  intros names s3. apply run_bind_Forall.
  { apply run_for_in_Forall. intros x acc s4. now apply run_call_Forall. }
  intros u s4. apply run_bind_Forall.
  { apply run_for_in_Forall. intros x acc s5.
    apply run_bind_Forall; [now apply run_call_Forall |].
    intros u1 s6. apply run_bind_Forall; [now apply run_call_Forall |].
    intros u2 s7. now apply run_call_Forall. }
  intros u' s5. apply run_bind_Forall.
  { apply run_for_in_Forall. intros x acc s6.
    apply run_bind_Forall; [now apply run_call_Forall |].
    intros; simpl; constructor. }
  intros; simpl; constructor.
Qed.

Lemma find_sources_loop_tsmaps (todo : list Z) (o : ResultSet Source)
      (s : St) :
  let tr := fst (fst (run h (find_sources_loop Source create_source_name
                                               config kwargs todo o) s)) in
  filter is_tsmap tr
  = map (fun i => ev (tsmap (round_label i) seed_src_dict false kwargs))
        (firstn (rounds_started tr) todo).
Proof.
  revert o s. induction todo as [| i todo IH]; intros o s; cbv zeta.
  - reflexivity.
  - rewrite find_sources_loop_run.
    pose proof (iterate_tsmaps i s) as H1.
    destruct (run h (_iterate Source create_source_name config i kwargs) s)
      as [[tr1 s1] [srcs | e]]; simpl in H1.
    + cbv zeta. destruct (h unit _ s1) as [[u s2] |].
      * destruct (length srcs =? 0)%nat.
        -- simpl fst. unfold rounds_started.
           rewrite filter_app, H1. reflexivity.
        -- specialize (IH (mkResultSet (sources o ++ srcs)) s2).
           cbv zeta in IH.
           destruct (run h (find_sources_loop Source create_source_name
                                              config kwargs todo _) s2)
             as [[tr2 s3] r].
           simpl fst in *. unfold rounds_started in *.
           rewrite filter_app, H1. simpl. f_equal. exact IH.
      * simpl fst. unfold rounds_started.
        rewrite filter_app, H1. reflexivity.
    + simpl fst. unfold rounds_started. rewrite H1. reflexivity.
Qed.
End SearchTrace.

Lemma firstn_seq_le (n len start : nat) :
  (n <= len)%nat -> firstn n (seq start len) = seq start n.
Proof.
  revert len start. induction n as [| n IH]; intros len start H.
  - reflexivity.
  - destruct len as [| len]; [lia |]. simpl. f_equal. apply IH. lia.
Qed.

Lemma firstn_range (n : nat) (N : Z) :
  (n <= Z.to_nat N)%nat -> firstn n (range N) = range (Z.of_nat n).
Proof.
  intros H. unfold range. rewrite firstn_map, firstn_seq_le by exact H.
  now rewrite Nat2Z.id.
Qed.

(** X17.  When [find_sources] completes it returns as many sources as it
    registered with [add_source] over all the rounds. *)
Theorem find_sources_returns_registered
        {Source St : Type} (h : Engine Source St)
        (create_source_name : SkyDir -> string)
        (config : Config) (kwargs : Kwargs)
        (s s' : St) (tr : list (Event Source)) (o : ResultSet Source) :
  run h (find_sources Source create_source_name config kwargs) s
  = (tr, s', Ok o) ->
  length (sources o) = length (registered tr).
Proof.
  unfold find_sources. intros H.
  now apply (find_sources_loop_registered h create_source_name config
                                          kwargs) in H.
Qed.

Lemma find_sources_returns_registered_witness :
  length (sources
            (mkResultSet
               [peak_src_dict Sample.three (mkPeak 8 0 (mkSkyDir 8 0) 12)]))
  = length (registered
              (fst (fst (run Stub.engine
                             (Stub.finder Stub.config Stub.no_kwargs)
                             Stub.three_rounds)))).
Proof.
  apply (find_sources_returns_registered
           Stub.engine Stub.create_source_name Stub.config Stub.no_kwargs
           Stub.three_rounds
           (snd (fst (run Stub.engine
                          (Stub.finder Stub.config Stub.no_kwargs)
                          Stub.three_rounds)))).
  vm_compute. reflexivity.
Defined.

(** X18.  Whatever the engine does, the significance maps requested by
    [find_sources] are those of the rounds 0, 1, 2, ... in this order, one
    per round started, each under the label ['sourcefind_%02i'] of its
    round, with the seed model and the caller's keywords. *)
Theorem find_sources_requests_in_order
        {Source St : Type} (h : Engine Source St)
        (create_source_name : SkyDir -> string)
        (config : Config) (kwargs : Kwargs) (s : St) :
  let tr := fst (fst (run h (find_sources Source create_source_name config
                                          kwargs) s)) in
  filter is_tsmap tr
  = map (fun i => ev (tsmap (round_label i) seed_src_dict false kwargs))
        (range (Z.of_nat (rounds_started tr))).
Proof.
  cbv zeta. unfold find_sources.
  rewrite (find_sources_loop_tsmaps h create_source_name config kwargs).
  rewrite firstn_range; [reflexivity |].
  eapply Nat.le_trans; [apply find_sources_loop_rounds |].
  rewrite range_length. lia.
Qed.

(** * Round labels *)

Lemma fmt_i_read (n : Z) :
  NilZero.uint_of_string (fmt_i n) = Some (N.to_uint (Z.to_N n)).
Proof.
  unfold fmt_i. apply NilZero.usu.
  rewrite <- (DecimalN.Unsigned.of_to (Z.to_N n)) at 1.
  rewrite DecimalN.Unsigned.to_of. apply DecimalFacts.unorm_nonnil.
Qed.

(** The label digits read back as the round index. *)
Lemma fmt_02i_read (n : Z) :
  option_map N.of_uint (NilZero.uint_of_string (fmt_02i n))
  = Some (Z.to_N n).
Proof.
  pose proof (fmt_i_read n) as H. unfold fmt_02i.
  destruct (n <? 10)%Z.
  - cbn [append].
    assert (E : NilEmpty.uint_of_string (fmt_i n)
                = Some (N.to_uint (Z.to_N n))).
    { destruct (fmt_i n); [discriminate | exact H]. }
    cbn [NilZero.uint_of_string NilEmpty.uint_of_string]. rewrite E.
    simpl. now rewrite DecimalN.Unsigned.of_to.
  - rewrite H. simpl. now rewrite DecimalN.Unsigned.of_to.
Qed.

(** X19.  Different rounds get different labels: ['sourcefind_%02i' % i] is
    injective on the round indices, also beyond two digits. *)
Theorem round_label_injective (i j : Z) :
  (0 <= i)%Z -> (0 <= j)%Z -> round_label i = round_label j -> i = j.
Proof.
  intros Hi Hj H. unfold round_label in H. simpl in H.
  injection H as H.
  pose proof (fmt_02i_read i) as Ri. pose proof (fmt_02i_read j) as Rj.
  rewrite H in Ri. rewrite Ri in Rj. injection Rj as Rj. lia.
Qed.

Lemma round_label_injective_witness :
  round_label 7 = "sourcefind_07"%string /\ 7%Z = 7%Z.
Proof.
  split; [reflexivity |].
  apply (round_label_injective 7 7); [lia | lia | reflexivity].
Defined.
